(** * Efes client: chunked transfer, response checking and the status view

    A shallow embedding of the Go client of Efes (the [Client] methods
    [Read], [Write], [write], [createOpen], [createClose],
    [checkResponseError], and the status view [Status] / [Print] with the
    [deviceStatus] renderers), together with the properties the
    specification states about them.

    Conventions.
    - Go's [int64] and [int] are integers of [Z] with the two's-complement
      wrap-around written out ([wrap64]); every arithmetic operation of the
      source goes through it.
    - A nil-able [*int64] is an [option Z].
    - A Go [error] is an [option error]: [None] is [nil].
    - A run-time panic (integer division by zero) is the [None] of an
      [option] result.
    - Loops that need not terminate take a fuel argument; [None] as their
      result means "still running when the fuel ran out". *)

From Stdlib Require Import ZArith Lia List String Ascii Bool DecimalString.
From Stdlib Require Import Strings.Byte.
From stdpp Require Import base option list gmap strings sorting.

Open Scope Z_scope.

(** ** Machine integers *)

Module Int64.

Definition min_int : Z := - 2 ^ 63.
Definition max_int : Z := 2 ^ 63 - 1.

(** The value of a 64-bit two's-complement word, as Go's [int64] holds it. *)
Definition wrap64 (x : Z) : Z := (x + 2 ^ 63) mod 2 ^ 64 - 2 ^ 63.

Definition in_range (x : Z) : Prop := min_int <= x <= max_int.

Definition add (x y : Z) : Z := wrap64 (x + y).
Definition sub (x y : Z) : Z := wrap64 (x - y).
Definition mul (x y : Z) : Z := wrap64 (x * y).

(** Go's [/] on integers truncates toward zero and panics on a zero
    divisor; [min_int / -1] wraps to [min_int]. *)
Definition quot (x y : Z) : Z := wrap64 (x ÷ y).
Definition quo (x y : Z) : option Z :=
  if decide (y = 0) then None else Some (quot x y).

(** [strconv.FormatInt(x, 10)]. *)
Definition FormatInt (x : Z) : string := NilZero.string_of_int (Z.to_int x).

End Int64.

Import Int64.

(** ** HTTP values *)

(** The part of [http.Response] the client looks at: the status code and
    the body, read in full by [ioutil.ReadAll]. *)
Record Response := mkResponse {
  StatusCode : Z;
  Body : string
}.

Definition StatusOK : Z := 200.

(** The errors the client builds itself, and the ones handed to it by its
    environment (transport, file system, JSON decoding), which it passes on
    untouched. *)
Inductive error :=
| ServerError (code : Z) (body : string)      (* "server error (%d): %s" *)
| ClientError (code : Z) (body : string)      (* "client error (%d): %s" *)
| UnexpectedStatus (code : Z) (body : string) (* "unexpected status code: %d, body: %s" *)
| NoPathReturned                              (* "no path returned from tracker" *)
| EnvError (msg : string).

(** [err.Error()]. *)
Definition Error (e : error) : string :=
  match e with
  | ServerError c b => "server error (" ++ FormatInt c ++ "): " ++ b
  | ClientError c b => "client error (" ++ FormatInt c ++ "): " ++ b
  | UnexpectedStatus c b =>
      "unexpected status code: " ++ FormatInt c ++ ", body: " ++ b
  | NoPathReturned => "no path returned from tracker"
  | EnvError m => m
  end%string.

Definition checkResponseError (resp : Response) (statusCode : Z) : option error :=
  if decide (StatusCode resp >= 500) then
    Some (ServerError (StatusCode resp) (Body resp))
  else if decide (StatusCode resp >= 400) then
    Some (ClientError (StatusCode resp) (Body resp))
  else if decide (StatusCode resp ≠ statusCode) then
    Some (UnexpectedStatus (StatusCode resp) (Body resp))
  else None.

Definition is_server_fault (e : option error) : Prop :=
  ∃ c b, e = Some (ServerError c b).
Definition is_client_fault (e : option error) : Prop :=
  ∃ c b, e = Some (ClientError c b).
Definition is_protocol_violation (e : option error) : Prop :=
  ∃ c b, e = Some (UnexpectedStatus c b).

(** ** Requests and the environment of the client *)

(** [url.Values], in the order of the calls to [Add]. *)
Definition Values := list (string * string).

(** What a request carries as its body: nothing, the encoded form of a
    tracker call, or the bytes the transport read from the chunk
    reader. *)
Inductive body :=
| NoBody
| FormBody (params : Values)
| ChunkBody (data : list byte).

Record Request := mkRequest {
  Method : string;
  URL : string;
  RawQuery : Values;
  Header : list (string * string);
  ReqBody : body
}.

Definition MethodGet : string := "GET".
Definition MethodPost : string := "POST".
Definition MethodPatch : string := "PATCH".

(** Modelled from the spec: the response types [GetPaths] and [CreateOpen]
    are declared outside the sources at hand; create-open answers
    [{path, fileId, deviceId}] and get-paths an ordered list of locations. *)
Record CreateOpen := mkCreateOpen {
  co_Path : string;
  co_Fid : Z;
  co_Devid : Z
}.

(** An opened file: what [Stat] reports and the bytes a reader gets. *)
Record File := mkFile {
  Stat : error + Z;
  Contents : list byte
}.

(** The files the client holds: the process's standard streams or a file
    it opened or created by name. *)
Inductive handle :=
| Stdin
| Stdout
| Named (path : string).

(** What the client does to the outside world, in order, each with the
    outcome the outside world gave. *)
Inductive event :=
| EvRequest (req : Request) (res : error + Response)
| EvOpen (path : string) (res : option error)
| EvCreate (path : string) (res : option error)
| EvCopy (dest : handle) (data : string) (res : option error)
| EvClose (f : handle) (res : option error).

(** The outside world: deterministic, but free to answer by everything
    that happened so far. *)
Record Env := mkEnv {
  (* http.NewRequest fails on a URL that does not parse *)
  new_request_error : string → string → option error;
  (* http.Client.Do and http.Get *)
  round_trip : list event → Request → error + Response;
  (* how many bytes of the request body the transport had read when it
     gave up on a request it fails: 0 for a refused connection *)
  read_before_failure : list event → Request → nat;
  (* json.NewDecoder(resp.Body).Decode: the decoded value, or the error
     with the target as far as the decoder filled it *)
  decode_GetPaths : string → error * list string + list string;
  decode_CreateOpen : string → error * CreateOpen + CreateOpen;
  fs_open : list event → string → error + File;
  fs_create : list event → string → option error;
  copy_error : list event → handle → option error;
  close_error : list event → handle → option error;
  stdin : list byte
}.

Record Client := mkClient {
  (* int64(c.config.ChunkSize) *)
  ChunkSize : Z;
  (* newURL.String() once urlPath is joined to the tracker's path *)
  trackerURL : string → string
}.

(** A computation over the trace of events. *)
Definition Eff (A : Type) : Type := list event → A * list event.

#[global] Instance Eff_ret : MRet Eff := λ A (a : A) tr, (a, tr).
#[global] Instance Eff_bind : MBind Eff :=
  λ A B (f : A → Eff B) (m : Eff A) tr, let '(a, tr') := m tr in f a tr'.

(** The transport: the request goes out, the environment answers. *)
Definition Do (env : Env) (req : Request) : Eff (error + Response) :=
  λ tr, let res := round_trip env tr req in (res, tr ++ [EvRequest req res]).

(** [request]: the error, with the target when the decoder reached it, or
    the decoded value ([None] for a nil target). *)
Definition request {T : Type} (env : Env) (c : Client)
    (method urlPath : string) (params : Values) (statusCode : Z)
    (response : option (string → error * T + T))
    : Eff (error * option T + option T) :=
  let reqBody := if decide (method = MethodPost) then FormBody params else NoBody in
  let url := trackerURL c urlPath in
  let query := if decide (method = MethodGet) then params else [] in
  match new_request_error env method url with
  | Some err => mret (inl (err, None))
  | None =>
      let hdr := if decide (method = MethodPost)
                 then [("Content-Type", "application/x-www-form-urlencoded")]
                 else [] in
      res ← Do env (mkRequest method url query hdr reqBody);
      match res with
      | inl err => mret (inl (err, None))
      | inr resp =>
          match checkResponseError resp statusCode with
          | Some err => mret (inl (err, None))
          | None =>
              match response with
              | None => mret (inr None)
              | Some decode =>
                  match decode (Body resp) with
                  | inl (err, filled) => mret (inl (err, Some filled))
                  | inr v => mret (inr (Some v))
                  end
              end
          end
      end
  end%string.

(** ** Reading a key *)

Definition getPaths (env : Env) (c : Client) (key : string)
    : Eff (list string * option error) :=
  let form : Values := [("key", key)] in
  r ← request env c MethodGet "get-paths" form StatusOK (Some (decode_GetPaths env));
  match r with
  | inl (err, None) => mret ([], Some err)
  | inl (err, Some filled) => mret (filled, Some err)
  | inr None => mret ([], None)
  | inr (Some paths) => mret (paths, None)
  end.

(** [http.Get]: a GET request without headers or body on the default
    client. *)
Definition Get (env : Env) (url : string) : Eff (error + Response) :=
  match new_request_error env MethodGet url with
  | Some err => mret (inl err)
  | None => Do env (mkRequest MethodGet url [] [] NoBody)
  end.

Definition Create (env : Env) (path : string) : Eff (option error) :=
  λ tr, let res := fs_create env tr path in (res, tr ++ [EvCreate path res]).

Definition Copy (env : Env) (f : handle) (data : string) : Eff (option error) :=
  λ tr, let res := copy_error env tr f in (res, tr ++ [EvCopy f data res]).

Definition Close (env : Env) (f : handle) : Eff (option error) :=
  λ tr, let res := close_error env tr f in (res, tr ++ [EvClose f res]).

Definition copy_and_close (env : Env) (f : handle) (resp : Response)
    : Eff (option error) :=
  err ← Copy env f (Body resp);
  match err with
  | Some e => _ ← Close env f; mret (Some e)
  | None => Close env f
  end.

Definition Read (env : Env) (c : Client) (key path : string) : Eff (option error) :=
  '(paths, err) ← getPaths env c key;
  match err with
  | Some e => mret (Some e)
  | None =>
      match paths with
      | [] => mret (Some NoPathReturned)
      | p0 :: _ =>
          r ← Get env p0;
          match r with
          | inl e => mret (Some e)
          | inr resp =>
              match checkResponseError resp StatusOK with
              | Some e => mret (Some e)
              | None =>
                  if decide (path = "-"%string) then
                    copy_and_close env Stdout resp
                  else
                    cerr ← Create env path;
                    match cerr with
                    | Some e => mret (Some e)
                    | None => copy_and_close env (Named path) resp
                    end
              end
          end
      end
  end.

(** ** Writing a key *)

(** Modelled from the spec: [readCounter] ([newReadCounter], [Count]) is
    declared outside the sources at hand; the spec describes it as the
    running byte-offset counter of the write session, a cursor over the
    input source that counts the bytes read through it.  The count is kept
    in [Z]: a source of [2^63] bytes is out of reach. *)
Record readCounter := mkReadCounter {
  rc_rest : list byte;
  rc_count : Z
}.

Definition newReadCounter (r : list byte) : readCounter := mkReadCounter r 0.

Definition Count (rc : readCounter) : Z := rc_count rc.

(** Draining [io.LimitReader(rc, n)]: reads go on until [n] bytes came or
    the source is at its end; [n <= 0] reads nothing. *)
Definition drain_limited (n : Z) (rc : readCounter) : list byte * readCounter :=
  let chunk := take (Z.to_nat n) (rc_rest rc) in
  (chunk,
   mkReadCounter (drop (Z.to_nat n) (rc_rest rc))
                 (rc_count rc + Z.of_nat (length chunk))).

Definition createOpen (env : Env) (c : Client) (size : Z)
    : Eff (CreateOpen * option error) :=
  let form : Values :=
    if decide (size > -1) then [("size", FormatInt size)] else [] in
  r ← request env c MethodPost "create-open" form StatusOK
        (Some (decode_CreateOpen env));
  match r with
  | inl (err, None) => mret (mkCreateOpen "" 0 0, Some err)
  | inl (err, Some filled) => mret (filled, Some err)
  | inr None => mret (mkCreateOpen "" 0 0, None)
  | inr (Some resp) => mret (resp, None)
  end.

(** The headers of one chunk request. *)
Definition chunk_header (offset size : Z) : list (string * string) :=
  [("efes-file-offset", FormatInt offset)] ++
  (if decide (size > -1) then [("efes-file-length", FormatInt size)] else []).

(** What the transport has taken from the chunk reader when [Do] returns:
    the whole chunk when a response arrived, and what it had read before
    it gave up when it failed. *)
Definition transport_read (env : Env) (tr : list event) (req : Request)
    (limit : Z) (rc : readCounter) (ans : error + Response)
    : list byte * readCounter :=
  match ans with
  | inr _ => drain_limited limit rc
  | inl _ =>
      drain_limited (Z.min limit (Z.of_nat (read_before_failure env tr req))) rc
  end.

(** [c.httpClient.Do(req)] on a request whose body is the chunk reader
    [io.LimitReader(rc, limit)].  The environment is asked with the chunk
    the reader can supply; the counter comes back as the transport left
    it, and the trace keeps the bytes that were read from the reader. *)
Definition send_chunk (env : Env) (path : string)
    (hdr : list (string * string)) (limit : Z) (rc : readCounter)
    : Eff ((error + Response) * readCounter) :=
  λ tr,
    let req :=
      mkRequest MethodPatch path [] hdr (ChunkBody (drain_limited limit rc).1) in
    let ans := round_trip env tr req in
    let '(read, rc') := transport_read env tr req limit rc ans in
    ((ans, rc'),
     tr ++ [EvRequest (mkRequest MethodPatch path [] hdr (ChunkBody read)) ans]).

(** The body of [write]'s [for] loop; [None] when the fuel ran out with
    the loop still going.  The request is built on the chunk reader and
    the offset is taken before anything is read; the transport then reads
    from the chunk reader while it sends the request, so the counter has
    moved when [Do] returns. *)
Fixpoint write_loop (env : Env) (c : Client) (path : string) (size : Z)
    (fuel : nat) (rc : readCounter) : Eff (option (Z * option error)) :=
  match fuel with
  | O => mret None
  | S fuel' =>
      match new_request_error env MethodPatch path with
      | Some err => mret (Some (Count rc, Some err))
      | None =>
          let offset := Count rc in
          let hdr := chunk_header offset size in
          '(res, rc') ← send_chunk env path hdr (ChunkSize c) rc;
          match res with
          | inl err => mret (Some (Count rc', Some err))
          | inr resp =>
              match checkResponseError resp StatusOK with
              | Some err => mret (Some (Count rc', Some err))
              | None =>
                  if decide (size > -1 ∧ Count rc' >= size) then
                    (* EOF is reached. Do not make a new PATCH request with
                       empty body. *)
                    mret (Some (Count rc', None))
                  else write_loop env c path size fuel' rc'
              end
          end
      end
  end.

Definition write (env : Env) (c : Client) (path : string) (size : Z)
    (r : list byte) (fuel : nat) : Eff (option (Z * option error)) :=
  write_loop env c path size fuel (newReadCounter r).

Definition createClose (env : Env) (c : Client) (key : string)
    (size fid devid : Z) : Eff (option error) :=
  let form : Values :=
    [("key", key); ("size", FormatInt size);
     ("fid", FormatInt fid); ("devid", FormatInt devid)] in
  r ← request (T := unit) env c MethodPost "create-close" form StatusOK None;
  match r with
  | inl (err, _) => mret (Some err)
  | inr _ => mret None
  end.

(** [Write] from the call of [createOpen] on. *)
Definition Write_session (env : Env) (c : Client) (key : string) (size : Z)
    (f : list byte) (fuel : nat) : Eff (option (option error)) :=
  '(co, err) ← createOpen env c size;
  match err with
  | Some e => mret (Some (Some e))
  | None =>
      w ← write env c (co_Path co) size f fuel;
      match w with
      | None => mret None
      | Some (n, Some e) => mret (Some (Some e))
      | Some (n, None) =>
          cerr ← createClose env c key n (co_Fid co) (co_Devid co);
          mret (Some cerr)
      end
  end.

Definition Open (env : Env) (path : string) : Eff (error + File) :=
  λ tr, let res := fs_open env tr path in
        (res, tr ++ [EvOpen path (match res with inl e => Some e | inr _ => None end)]).

(** [Write]; [None] when the fuel ran out inside the chunk loop.  The
    deferred [f.Close()] runs when the function returns. *)
Definition Write (env : Env) (c : Client) (key path : string) (fuel : nat)
    : Eff (option (option error)) :=
  if decide (path = "-"%string) then
    Write_session env c key (-1) (stdin env) fuel
  else
    o ← Open env path;
    match o with
    | inl err => mret (Some (Some err))
    | inr f =>
        r ← match Stat f with
            | inl err => mret (Some (Some err))
            | inr size => Write_session env c key size (Contents f) fuel
            end;
        match r with
        | None => mret None
        | Some res => _ ← Close env (Named path); mret (Some res)
        end
    end.

(** Delete the key on Efes. *)
Definition Delete (env : Env) (c : Client) (key : string) : Eff (option error) :=
  r ← request (T := unit) env c MethodPost "delete" [("key", key)] StatusOK None;
  match r with
  | inl (err, _) => mret (Some err)
  | inr _ => mret None
  end.

(** Exist checks the existing of a key on Efes. *)
Definition Exist (env : Env) (c : Client) (key : string) : Eff (bool * option error) :=
  '(paths, err) ← getPaths env c key;
  match err with
  | Some e => mret (false, Some e)
  | None => mret (bool_decide (0 < Z.of_nat (length paths)), None)
  end.

(** ** The status view *)

(** Modelled from the spec: the records [Device] and [Host] are declared
    outside the sources at hand.  A device has an identifier, the
    identifier of its host, a status, total, used and free capacity in
    bytes and an I/O utilization, each possibly absent, and the time of
    its last update; a host has an identifier, a name and a status.  The
    fields are the ones [Status] and the renderers read. *)
Module Device.
Record t := mk {
  Devid : Z;
  Hostid : Z;
  Status : string;
  BytesTotal : option Z;
  BytesUsed : option Z;
  BytesFree : option Z;
  IoUtilization : option Z;
  UpdatedAt : Z
}.
End Device.

Module Host.
Record t := mk {
  Hostid : Z;
  Hostname : string;
  Status : string
}.
End Host.

Record deviceStatus := mkDeviceStatus {
  Device : Device.t;
  Hostname : string;
  HostStatus : string;
  (* time.Unix(d.UpdatedAt, 0), as seconds *)
  UpdatedAt : Z
}.

Record efesStatus := mkEfesStatus {
  devices : list deviceStatus
}.

(** Modelled from the spec: the constant [G] (bytes per displayed unit),
    [humanize.Comma] and the rendering of the time since the last update
    come from outside the sources at hand and are taken as given. *)
Record Render := mkRender {
  G : Z;
  Comma : Z → string;
  since : Z → string
}.

Definition Size (r : Render) (d : deviceStatus) : option string :=
  match Device.BytesTotal (Device d) with
  | None => Some ""%string
  | Some total => q ← quo total (G r); Some (Comma r q)
  end.

Definition Used (r : Render) (d : deviceStatus) : option string :=
  match Device.BytesUsed (Device d) with
  | None => Some ""%string
  | Some used => q ← quo used (G r); Some (Comma r q)
  end.

Definition Free (r : Render) (d : deviceStatus) : option string :=
  match Device.BytesFree (Device d) with
  | None => Some ""%string
  | Some free => q ← quo free (G r); Some (Comma r q)
  end.

Definition Use (d : deviceStatus) : option string :=
  match Device.BytesUsed (Device d), Device.BytesTotal (Device d) with
  | Some used, Some total =>
      use ← quo (mul used 100) total; Some (FormatInt use)
  | _, _ => Some ""%string
  end.

Definition IO (d : deviceStatus) : string :=
  match Device.IoUtilization (Device d) with
  | None => ""
  | Some io => FormatInt io
  end.

(** The sums of [Print], before the conversion to the displayed unit. *)
Record Totals := mkTotals {
  totalUsed : Z;
  totalSize : Z;
  totalFree : Z;
  totalUse : Z
}.

Definition sum_step (acc : Z * Z) (d : deviceStatus) : Z * Z :=
  let '(totalUsed, totalSize) := acc in
  let totalUsed :=
    match Device.BytesUsed (Device d) with
    | Some used => add totalUsed used
    | None => totalUsed
    end in
  let totalSize :=
    match Device.BytesTotal (Device d) with
    | Some total => add totalSize total
    | None => totalSize
    end in
  (totalUsed, totalSize).

Definition sum_totals (s : efesStatus) : Totals :=
  let '(totalUsed, totalSize) := foldl sum_step (0, 0) (devices s) in
  let totalFree := sub totalSize totalUsed in
  let totalUse :=
    if decide (totalSize = 0) then 0
    else quot (mul 100 totalUsed) totalSize in
  mkTotals totalUsed totalSize totalFree totalUse.

Record Table := mkTable {
  header : list string;
  footer : list string;
  rows : list (list string)
}.

Definition table_header : list string :=
  ["Host"; "Status"; "Device"; "Status"; "Size (G)"; "Used (G)";
   "Free (G)"; "Use %"; "IO %"; "Last update"]%string.

Definition row (r : Render) (d : deviceStatus) : option (list string) :=
  size ← Size r d;
  used ← Used r d;
  free ← Free r d;
  use ← Use d;
  Some [Hostname d; HostStatus d; FormatInt (Device.Devid (Device d));
        Device.Status (Device d); size; used; free; use; IO d;
        since r (UpdatedAt d)].

(** What [Print] hands to the table writer; [None] when it panics before
    anything is rendered (a zero divisor). *)
Definition Print (r : Render) (s : efesStatus) : option Table :=
  let t := sum_totals s in
  used ← quo (totalUsed t) (G r);
  free ← quo (totalFree t) (G r);
  size ← quo (totalSize t) (G r);
  let foot := [""; ""; ""; "Total:"; Comma r size; Comma r used;
               Comma r free; FormatInt (totalUse t); ""; ""]%string in
  data ← mapM (row r) (devices s);
  Some (mkTable table_header foot data).

(** The orderings [Status] can sort by. *)
Inductive sortKey := byHostname | byDevID | bySize | byUsed | byFree.

(** What [sort.Sort] asks of [Less] before it promises a sorted result. *)
Definition strict_weak {A : Type} (less : A → A → bool) : Prop :=
  (∀ x y, less x y = true → less y x = false) ∧
  (∀ x y z, less y x = false → less z y = false → less z x = false).

(** Modelled from the spec: [sort.Sort] is Go's library sort.  It reorders
    the slice by swaps, and on a [Less] that is a strict weak ordering it
    leaves no element before one that is less than it; which of several
    such orders it produces is not fixed.  The comparison of two counts
    either of which may be missing is declared outside the sources at
    hand: two counts that are present compare by [<], and the comparison
    is a strict weak ordering. *)
Class Sorting := mkSorting {
  less_count : option Z → option Z → bool;
  less_count_present : ∀ x y, less_count (Some x) (Some y) = (x <? y);
  less_count_strict_weak : strict_weak less_count;
  Sort : (deviceStatus → deviceStatus → bool) → list deviceStatus → list deviceStatus;
  Sort_perm : ∀ less l, Sort less l ≡ₚ l;
  Sort_sorted : ∀ less l, strict_weak less →
    StronglySorted (λ a b, less b a = false) (Sort less l)
}.

(** Modelled from the spec: the [Less] methods of [byHostname], [byDevID],
    [bySize], [byUsed] and [byFree] are declared outside the sources at
    hand.  They order by host name (Go's [<] on strings, byte by byte),
    by device id, and by the total, used and free count, ascending. *)
Definition Less `{Sorting} (k : sortKey) (a b : deviceStatus) : bool :=
  match k with
  | byHostname => String.ltb (Hostname a) (Hostname b)
  | byDevID => Device.Devid (Device a) <? Device.Devid (Device b)
  | bySize =>
      less_count (Device.BytesTotal (Device a)) (Device.BytesTotal (Device b))
  | byUsed =>
      less_count (Device.BytesUsed (Device a)) (Device.BytesUsed (Device b))
  | byFree =>
      less_count (Device.BytesFree (Device a)) (Device.BytesFree (Device b))
  end.

(** Modelled from the spec: [request] in the form [Status] calls it (no
    expected status, only an error returned) is outside the sources at
    hand; GET get-devices answers the list of all device records and GET
    get-hosts the list of all host records, or the call fails. *)
Record Tracker := mkTracker {
  get_devices : error + list Device.t;
  get_hosts : error + list Host.t
}.

Definition index_hosts (hosts : list Host.t) : gmap Z Host.t :=
  foldl (λ m h, <[Host.Hostid h := h]> m) ∅ hosts.

Definition join_host (hostsByID : gmap Z Host.t) (d : Device.t) : deviceStatus :=
  let '(hostname, hostStatus) :=
    match hostsByID !! Device.Hostid d with
    | Some h => (Host.Hostname h, Host.Status h)
    | None => (""%string, ""%string)
    end in
  mkDeviceStatus d hostname hostStatus (Device.UpdatedAt d).

Definition collect (hostsByID : gmap Z Host.t) (ds : list Device.t)
    : list deviceStatus :=
  foldl (λ ret d,
           if decide (Device.Status d = "dead"%string) then ret
           else ret ++ [join_host hostsByID d])
        [] ds.

(** A call of the logger, with its operands. *)
Inductive log_entry :=
| Warningln (args : list string).

(** [Status]: the view, the error, and what was logged. *)
Definition Status `{Sorting} (t : Tracker) (sortBy : string)
    : option efesStatus * option error * list log_entry :=
  match get_devices t with
  | inl err => (None, Some err, [])
  | inr devs =>
      match get_hosts t with
      | inl err => (None, Some err, [])
      | inr hosts =>
          let hostsByID := index_hosts hosts in
          let ret := collect hostsByID devs in
          if decide (sortBy = "host") then
            (Some (mkEfesStatus (Sort (Less byHostname) ret)), None, [])
          else if decide (sortBy = "device") then
            (Some (mkEfesStatus (Sort (Less byDevID) ret)), None, [])
          else if decide (sortBy = "size") then
            (Some (mkEfesStatus (Sort (Less bySize) ret)), None, [])
          else if decide (sortBy = "used") then
            (Some (mkEfesStatus (Sort (Less byUsed) ret)), None, [])
          else if decide (sortBy = "free") then
            (Some (mkEfesStatus (Sort (Less byFree) ret)), None, [])
          else
            (Some (mkEfesStatus ret), None,
             [Warningln ["Sort key is not valid:"; sortBy]])
      end
  end%string.

(** ** What a trace shows, and the words of the specification *)

(** What a stretch of the trace shows of an upload: the bodies of the
    chunk requests, their total length, the first chunk request that was
    not acknowledged with 200, and the create-close requests. *)
Definition chunk_of (ev : event) : option (list byte) :=
  match ev with
  | EvRequest req _ =>
      match ReqBody req with ChunkBody data => Some data | _ => None end
  | _ => None
  end.

Definition chunks (tr : list event) : list (list byte) := omap chunk_of tr.

Definition bytes_sent (tr : list event) : Z :=
  Z.of_nat (length (concat (chunks tr))).

Definition answer_error (ans : error + Response) : option error :=
  match ans with
  | inl e => Some e
  | inr resp => checkResponseError resp StatusOK
  end.

Fixpoint chunk_failure (tr : list event) : option error :=
  match tr with
  | [] => None
  | EvRequest req ans :: rest =>
      match ReqBody req, answer_error ans with
      | ChunkBody _, Some e => Some e
      | _, _ => chunk_failure rest
      end
  | _ :: rest => chunk_failure rest
  end.

(** [h.Get(k)] on the headers of a request. *)
Definition header_get (h : list (string * string)) (k : string) : option string :=
  snd <$> find (λ kv, bool_decide (kv.1 = k)) h.

(** The requests of a stretch of the trace are the chunk requests of one
    session on [path], each with the headers for the offset reached. *)
Fixpoint chunk_requests_from (path : string) (size : Z) (off : Z)
    (new : list event) : Prop :=
  match new with
  | [] => True
  | EvRequest req _ :: rest =>
      ∃ data,
        req = mkRequest MethodPatch path [] (chunk_header off size) (ChunkBody data) ∧
        chunk_requests_from path size (off + Z.of_nat (length data)) rest
  | _ :: _ => False
  end.

(** The storage device acknowledges every chunk request on [path]. *)
Definition acknowledges (env : Env) (path : string) : Prop :=
  new_request_error env MethodPatch path = None ∧
  ∀ tr req, Method req = MethodPatch → URL req = path →
            answer_error (round_trip env tr req) = None.

(** The create-close requests of a stretch of the trace: key, size, file
    and device identifier as sent. *)
Definition commit_of (ev : event) : option (string * string * string * string) :=
  match ev with
  | EvRequest req _ =>
      match ReqBody req with
      | FormBody [(k1, key); (k2, size); (k3, fid); (k4, devid)] =>
          if decide (k1 = "key" ∧ k2 = "size" ∧ k3 = "fid" ∧ k4 = "devid")%string
          then Some (key, size, fid, devid) else None
      | _ => None
      end
  | _ => None
  end.

Definition commits (tr : list event) : list (string * string * string * string) :=
  omap commit_of tr.

(** A stretch of the trace that shows no chunk and no commit. *)
Definition silent (new : list event) : Prop :=
  chunks new = [] ∧ chunk_failure new = None ∧ commits new = [].

Definition is_create (ev : event) : bool :=
  match ev with EvCreate _ _ => true | _ => false end.

(** No file is created or truncated in a stretch of the trace. *)
Definition no_create (new : list event) : Prop :=
  Forall (λ ev, is_create ev = false) new.

(** The spec's sum of a byte count over the devices that report it. *)
Definition spec_sum (f : Device.t → option Z) (ds : list deviceStatus) : Z :=
  foldr Z.add 0 (omap (λ d, f (Device d)) ds).

(** The fields that are present are byte counts: not negative. *)
Definition counts_nonneg (d : deviceStatus) : Prop :=
  (∀ x, Device.BytesUsed (Device d) = Some x → 0 <= x) ∧
  (∀ x, Device.BytesTotal (Device d) = Some x → 0 <= x).

(** The devices of the inventory that are not dead, in its order. *)
Definition living (devs : list Device.t) : list Device.t :=
  filter (λ d, Device.Status d ≠ "dead"%string) devs.

(** The spec's table of sort keys. *)
Definition sort_key (sortBy : string) : option sortKey :=
  if decide (sortBy = "host") then Some byHostname
  else if decide (sortBy = "device") then Some byDevID
  else if decide (sortBy = "size") then Some bySize
  else if decide (sortBy = "used") then Some byUsed
  else if decide (sortBy = "free") then Some byFree
  else None.



Definition is_request (ev : event) : bool :=
  match ev with EvRequest _ _ => true | _ => false end.

(** The request [createOpen] sends for a declared size, and the one
    [createClose] sends. *)
Definition createOpen_request (c : Client) (size : Z) : Request :=
  mkRequest MethodPost (trackerURL c "create-open") []
    [("Content-Type", "application/x-www-form-urlencoded")]%string
    (FormBody (if decide (size > -1) then [("size", FormatInt size)]%string else [])).

Definition createClose_request (c : Client) (key : string) (size fid devid : Z)
    : Request :=
  mkRequest MethodPost (trackerURL c "create-close") []
    [("Content-Type", "application/x-www-form-urlencoded")]%string
    (FormBody [("key", key); ("size", FormatInt size);
               ("fid", FormatInt fid); ("devid", FormatInt devid)]%string).

(** The request [request] builds. *)
Definition tracker_request (c : Client) (method urlPath : string)
    (params : Values) : Request :=
  mkRequest method (trackerURL c urlPath)
    (if decide (method = MethodGet) then params else [])
    (if decide (method = MethodPost)
     then [("Content-Type", "application/x-www-form-urlencoded")]%string else [])
    (if decide (method = MethodPost) then FormBody params else NoBody).

(** The handle [Read] writes to for a destination. *)
Definition destination (path : string) : handle :=
  if decide (path = "-"%string) then Stdout else Named path.

Definition is_copy (ev : event) : bool :=
  match ev with EvCopy _ _ _ => true | _ => false end.

(** The host a device is joined with: the last one of the answer of
    get-hosts with the device's host identifier. *)
Definition host_of (hosts : list Host.t) (d : Device.t) : option Host.t :=
  last (filter (λ h, Host.Hostid h = Device.Hostid d) hosts).

(** A device on which [Use] divides by zero. *)
Definition zero_total (d : deviceStatus) : Prop :=
  is_Some (Device.BytesUsed (Device d)) ∧ Device.BytesTotal (Device d) = Some 0.

(** ** Sample data *)

(** A device record with the given status, total and used bytes. *)
Definition device_with (status : string) (total used : option Z) : deviceStatus :=
  mkDeviceStatus (Device.mk 1 1 status total used None None 0) "" "" 0.

(** Five bytes of content. *)
Definition hello : list byte := list_byte_of_string "hello".

(** A location on a storage device, as create-open hands it out. *)
Definition dev_path : string := "http://dev1/42".

(** A world in which nothing fails: every request is answered with 200,
    the tracker names [dev_path] for everything, and the file ["f"] holds
    [hello] and reports five bytes. *)
Definition calm : Env :=
  mkEnv (λ _ _, None)
        (λ _ _, inr (mkResponse 200 "hello"))
        (λ _ _, 0%nat)
        (λ _, inr [dev_path])
        (λ _, inr (mkCreateOpen dev_path 42 1))
        (λ _ _, inr (mkFile (inr 5) hello))
        (λ _ _, None) (λ _ _, None) (λ _ _, None)
        hello.

(** The same world, but the file ["f"] reported three bytes when it was
    opened and holds five by the time it is read. *)
Definition grown : Env :=
  mkEnv (new_request_error calm) (round_trip calm)
        (read_before_failure calm)
        (decode_GetPaths calm) (decode_CreateOpen calm)
        (λ _ _, inr (mkFile (inr 3) hello))
        (fs_create calm) (copy_error calm) (close_error calm) [].

(** An inventory of three devices on one host; the second one is dead. *)
Definition host7 : Host.t := Host.mk 7 "alpha" "alive".

Definition dev3 : Device.t :=
  Device.mk 3 7 "alive" (Some 1000) (Some 333) (Some 667) (Some 12) 0.
Definition dev1 : Device.t :=
  Device.mk 1 7 "dead" (Some 4000) (Some 4000) (Some 0) None 0.
Definition dev2 : Device.t :=
  Device.mk 2 7 "alive" None (Some 50) None None 0.

Definition inventory : Tracker :=
  mkTracker (inr [dev3; dev1; dev2]) (inr [host7]).

(** Two hosts answer to the identifier 7, none to 9. *)
Definition dev9 : Device.t :=
  Device.mk 4 9 "alive" (Some 0) None None None 0.

Definition crowded : Tracker :=
  mkTracker (inr [dev3; dev9])
            (inr [host7; Host.mk 7 "beta" "dead"]).

(** A comparison of counts that puts the missing ones first, and merge
    sort for [sort.Sort]. *)
Definition sample_less_count (x y : option Z) : bool :=
  match x, y with
  | Some x, Some y => x <? y
  | None, Some _ => true
  | _, None => false
  end.

Definition sample_Sort (less : deviceStatus → deviceStatus → bool)
    (l : list deviceStatus) : list deviceStatus :=
  @merge_sort _ (λ a b, less b a = false)
              (λ a b, decide (less b a = false)) l.

(** The calm world with a tracker that knows no path for any key. *)
Definition barren : Env :=
  mkEnv (new_request_error calm) (round_trip calm)
        (read_before_failure calm)
        (λ _, inr []) (decode_CreateOpen calm)
        (fs_open calm) (fs_create calm) (copy_error calm) (close_error calm)
        (stdin calm).

(** A world whose storage device refuses every connection, and one whose
    connections break when one byte of the body has been read. *)
Definition refusing : Env :=
  mkEnv (new_request_error calm)
        (λ _ _, inl (EnvError "connection refused"))
        (λ _ _, 0%nat)
        (decode_GetPaths calm) (decode_CreateOpen calm)
        (fs_open calm) (fs_create calm) (copy_error calm) (close_error calm)
        (stdin calm).

Definition breaking : Env :=
  mkEnv (new_request_error calm)
        (λ _ _, inl (EnvError "broken pipe"))
        (λ _ _, 1%nat)
        (decode_GetPaths calm) (decode_CreateOpen calm)
        (fs_open calm) (fs_create calm) (copy_error calm) (close_error calm)
        (stdin calm).

(** The displayed unit is 100 bytes, numbers are shown without grouping. *)
Definition plain : Render := mkRender 100 FormatInt (λ _, "0s"%string).

(** A client sending two bytes per chunk. *)
Definition cl2 : Client := mkClient 2 (λ p, "http://tracker/" ++ p)%string.

(** The sample comparison with merge sort makes a [Sorting]. *)
Definition sample_sorting : Sorting.
Proof.
  refine (mkSorting sample_less_count _ _ sample_Sort _ _).
  - done.
  - split.
    + intros [x |] [y |]; simpl; try done.
      rewrite Z.ltb_lt, Z.ltb_ge. lia.
    + intros [x |] [y |] [z |]; simpl; try done.
      rewrite !Z.ltb_ge. lia.
  - intros less l. apply merge_sort_Permutation.
  - intros less l [Hasym Htrans]. apply StronglySorted_merge_sort.
    + intros x y z Hxy Hyz. by apply (Htrans x y z).
    + intros x y. destruct (less y x) eqn:Hyx; [right | by left].
      by apply Hasym.
Defined.

(** * Properties *)

(** ** Machine integers *)

Lemma wrap64_in_range (x : Z) : in_range x → wrap64 x = x.
Proof.
  unfold in_range, min_int, max_int, wrap64. intros Hx.
  rewrite Z.mod_small by lia. lia.
Qed.

Lemma wrap64_range (x : Z) : in_range (wrap64 x).
Proof.
  unfold in_range, min_int, max_int, wrap64.
  pose proof (Z.mod_pos_bound (x + 2 ^ 63) (2 ^ 64) ltac:(lia)). lia.
Qed.

Lemma wrap64_add_l (x y : Z) : wrap64 (wrap64 x + y) = wrap64 (x + y).
Proof.
  unfold wrap64.
  replace ((x + 2 ^ 63) `mod` 2 ^ 64 - 2 ^ 63 + y + 2 ^ 63)
    with ((x + 2 ^ 63) `mod` 2 ^ 64 + y) by lia.
  rewrite Zplus_mod_idemp_l. do 2 f_equal. lia.
Qed.

Lemma wrap64_idemp (x : Z) : wrap64 (wrap64 x) = wrap64 x.
Proof. apply wrap64_in_range, wrap64_range. Qed.

Example FormatInt_33 : FormatInt 33 = "33"%string.
Proof. reflexivity. Qed.

Example FormatInt_0 : FormatInt 0 = "0"%string.
Proof. reflexivity. Qed.

Example FormatInt_neg : FormatInt (-42) = "-42"%string.
Proof. reflexivity. Qed.

Example Error_404 :
  Error (ClientError 404 "gone") = "client error (404): gone"%string.
Proof. reflexivity. Qed.

(** ** Response checking *)

Example checkResponseError_200 :
  checkResponseError (mkResponse 200 "ok") StatusOK = None.
Proof. reflexivity. Qed.

Example checkResponseError_204 :
  checkResponseError (mkResponse 204 "") StatusOK
  = Some (UnexpectedStatus 204 "").
Proof. reflexivity. Qed.

Lemma checkResponseError_OK (resp : Response) :
  checkResponseError resp StatusOK = None ↔ StatusCode resp = 200.
Proof.
  unfold checkResponseError, StatusOK.
  repeat case_decide; split; intros;
    first [ discriminate | lia | exfalso; lia | reflexivity ].
Qed.

(** C3, as stated, fails: a response whose status equals the expected
    status is still reported as a client fault when that status is 404. *)
Lemma checkResponseError_expected_404 :
  checkResponseError (mkResponse 404 "") 404 = Some (ClientError 404 "").
Proof. reflexivity. Qed.

(** C3 (amended): [checkResponseError] returns a server fault exactly when
    the status is at least 500, a client fault exactly when it is in
    [400, 500), a protocol violation exactly when it is below 400 and
    differs from the expected status, and nil exactly when it equals the
    expected status and is below 400. *)
Theorem checkResponseError_classifies (resp : Response) (statusCode : Z) :
  (is_server_fault (checkResponseError resp statusCode)
     ↔ StatusCode resp >= 500) ∧
  (is_client_fault (checkResponseError resp statusCode)
     ↔ 400 <= StatusCode resp < 500) ∧
  (is_protocol_violation (checkResponseError resp statusCode)
     ↔ StatusCode resp < 400 ∧ StatusCode resp ≠ statusCode) ∧
  (checkResponseError resp statusCode = None
     ↔ StatusCode resp = statusCode ∧ StatusCode resp < 400).
Proof.
  unfold checkResponseError, is_server_fault, is_client_fault,
    is_protocol_violation.
  repeat case_decide;
    (split; [| split; [| split]]); split;
    solve [ intros (? & ? & [=]); lia
          | intros [=]; lia
          | intros; lia
          | intros; exfalso; lia
          | intros; eauto ].
Qed.

(** ** Per-device usage *)

Example Use_333_of_1000 :
  Use (device_with "alive" (Some 1000) (Some 333)) = Some "33"%string.
Proof. reflexivity. Qed.

Example Use_total_absent :
  Use (device_with "alive" None (Some 333)) = Some ""%string.
Proof. reflexivity. Qed.

Example Use_zero_total_panics :
  Use (device_with "alive" (Some 0) (Some 0)) = None.
Proof. reflexivity. Qed.

Lemma quot_percent (used total : Z) :
  0 <= used <= total → 0 < total → 0 <= used * 100 ÷ total <= 100.
Proof.
  intros Hu Ht. rewrite Z.quot_div_nonneg by lia. split.
  - apply Z.div_pos; lia.
  - apply Z.div_le_upper_bound; lia.
Qed.

(** C5, as stated, fails: with [used <= total] and [total > 0] the product
    [used * 100] can leave the range of [int64]; the rendered value is then
    negative. *)
Lemma Use_wraps_around :
  let d := device_with "alive" (Some 200000000000000000)
                               (Some 100000000000000000) in
  100000000000000000 <= 200000000000000000 ∧
  Use d = Some "-42"%string ∧
  FormatInt (100000000000000000 * 100 ÷ 200000000000000000) = "50"%string.
Proof. vm_compute. repeat split; congruence. Qed.

(** C5 (amended): for a device with both used and total present,
    [0 <= used <= total], [total > 0] and [used * 100] within [int64], the
    rendered usage is the decimal form of [used * 100 / total] truncated,
    a value in [0, 100]; when either field is absent the usage is the
    empty string, which is not how zero is rendered. *)
Theorem Use_percentage (d : deviceStatus) :
  (∀ used total,
     Device.BytesUsed (Device d) = Some used →
     Device.BytesTotal (Device d) = Some total →
     0 <= used <= total → 0 < total → used * 100 <= max_int →
     Use d = Some (FormatInt (used * 100 ÷ total)) ∧
     0 <= used * 100 ÷ total <= 100) ∧
  (Device.BytesUsed (Device d) = None ∨ Device.BytesTotal (Device d) = None →
     Use d = Some ""%string ∧ ""%string ≠ FormatInt 0).
Proof.
  split.
  - intros used total Hu Ht Hle Hpos Hmax.
    pose proof (quot_percent used total Hle Hpos) as Hq.
    unfold Use, quo, quot, mul. rewrite Hu, Ht.
    rewrite decide_False by lia. simpl.
    rewrite (wrap64_in_range (used * 100))
      by (unfold in_range, min_int, max_int in *; lia).
    rewrite wrap64_in_range
      by (unfold in_range, min_int, max_int in *; lia).
    done.
  - intros Habs. split; [| discriminate].
    unfold Use. destruct Habs as [-> | ->]; [done |].
    by destruct (Device.BytesUsed (Device d)).
Qed.

(** The scenario of the specification: 333 of 1000 bytes renders "33". *)
Lemma Use_percentage_witness :
  Use (device_with "alive" (Some 1000) (Some 333)) = Some "33"%string ∧
  0 <= 333 * 100 ÷ 1000 <= 100.
Proof.
  apply (proj1 (Use_percentage (device_with "alive" (Some 1000) (Some 333)))
           333 1000); [reflexivity | reflexivity | lia | lia |].
  unfold max_int. lia.
Defined.

(** ** Cluster-wide sums *)

Lemma spec_sum_cons (f : Device.t → option Z) d ds :
  spec_sum f (d :: ds) = default 0 (f (Device d)) + spec_sum f ds.
Proof. unfold spec_sum. simpl. by destruct (f _). Qed.

Lemma spec_sum_perm (f : Device.t → option Z) (l1 l2 : list deviceStatus) :
  l1 ≡ₚ l2 → spec_sum f l1 = spec_sum f l2.
Proof.
  induction 1 as [| x l l' _ IH | x y l | l l' l'' _ IH1 _ IH2].
  - done.
  - by rewrite !spec_sum_cons, IH.
  - rewrite !spec_sum_cons. lia.
  - congruence.
Qed.

Lemma spec_sum_nonneg (ds : list deviceStatus) :
  Forall counts_nonneg ds →
  0 <= spec_sum Device.BytesUsed ds ∧ 0 <= spec_sum Device.BytesTotal ds.
Proof.
  induction 1 as [| d ds [Hu Ht] _ IH]; [done |].
  rewrite !spec_sum_cons.
  destruct (Device.BytesUsed _) as [u |], (Device.BytesTotal _) as [t |];
    simpl; try specialize (Hu _ eq_refl); try specialize (Ht _ eq_refl); lia.
Qed.

(** The loop of [Print] computes the two sums, wrapped to 64 bits. *)
Lemma sum_step_foldl (ds : list deviceStatus) (a b : Z) :
  foldl sum_step (wrap64 a, wrap64 b) ds
  = (wrap64 (a + spec_sum Device.BytesUsed ds),
     wrap64 (b + spec_sum Device.BytesTotal ds)).
Proof.
  revert a b. induction ds as [| d ds IH]; intros a b.
  - unfold spec_sum. simpl. by rewrite !Z.add_0_r.
  - rewrite !spec_sum_cons. simpl. unfold add.
    destruct (Device.BytesUsed _) as [u |], (Device.BytesTotal _) as [t |];
      simpl; rewrite ?wrap64_add_l, IH; f_equal; f_equal; lia.
Qed.

Lemma sum_totals_wrapped (s : efesStatus) :
  totalUsed (sum_totals s) = wrap64 (spec_sum Device.BytesUsed (devices s)) ∧
  totalSize (sum_totals s) = wrap64 (spec_sum Device.BytesTotal (devices s)).
Proof.
  unfold sum_totals.
  change (0, 0) with (wrap64 0, wrap64 0). by rewrite sum_step_foldl.
Qed.

Lemma sum_totals_perm (s1 s2 : efesStatus) :
  devices s1 ≡ₚ devices s2 → sum_totals s1 = sum_totals s2.
Proof.
  intros Hp. unfold sum_totals.
  change (0, 0) with (wrap64 0, wrap64 0). rewrite !sum_step_foldl.
  by rewrite (spec_sum_perm _ _ _ Hp), (spec_sum_perm Device.BytesTotal _ _ Hp).
Qed.

(** The cluster usage is not the average of the devices' usages: a small
    full device and a large empty one. *)
Example cluster_use_is_not_the_average :
  let small := device_with "alive" (Some 100) (Some 90) in
  let large := device_with "alive" (Some 900) (Some 0) in
  Use small = Some "90"%string ∧ Use large = Some "0"%string ∧
  totalUse (sum_totals (mkEfesStatus [small; large])) = 9 ∧
  (90 + 0) / 2 = 45.
Proof. vm_compute. repeat split; congruence. Qed.

(** C4, as stated, fails: the sums are right, but [100 * sum(used)] leaves
    the range of [int64] and the usage derived from it is negative. *)
Lemma sum_totals_wraps_around :
  let s := mkEfesStatus [device_with "alive" (Some 200000000000000000)
                                             (Some 100000000000000000)] in
  totalUsed (sum_totals s) = 100000000000000000 ∧
  totalSize (sum_totals s) = 200000000000000000 ∧
  totalUse (sum_totals s) = -42 ∧
  (100 * 100000000000000000) `div` 200000000000000000 = 50.
Proof. vm_compute. repeat split; congruence. Qed.

(** C4 (amended): when the byte counts that are present are not negative
    and [sum(total)] and [100 * sum(used)] are within [int64], the totals
    of [Print] are the sums of the per-device counts over the devices that
    report them (an absent count adds nothing), and the cluster usage is
    [floor(100 * sum(used) / sum(total))] of these sums, [0] when the
    capacity sum is [0]; [Print] shows that value in the footer. *)
Theorem sum_totals_from_sums (s : efesStatus) :
  let used := spec_sum Device.BytesUsed (devices s) in
  let total := spec_sum Device.BytesTotal (devices s) in
  let use := if decide (total = 0) then 0 else (100 * used) `div` total in
  Forall counts_nonneg (devices s) →
  total <= max_int → 100 * used <= max_int →
  totalUsed (sum_totals s) = used ∧
  totalSize (sum_totals s) = total ∧
  totalUse (sum_totals s) = use ∧
  (∀ r t, Print r s = Some t → footer t !! 7%nat = Some (FormatInt use)).
Proof.
  intros used total use Hnn Htot Hused.
  destruct (spec_sum_nonneg _ Hnn) as [Hu0 Ht0]. fold used total in Hu0, Ht0.
  destruct (sum_totals_wrapped s) as [HU HT]. fold used total in HU, HT.
  rewrite wrap64_in_range in HU
    by (unfold in_range, min_int, max_int in *; lia).
  rewrite wrap64_in_range in HT
    by (unfold in_range, min_int, max_int in *; lia).
  assert (Huse : totalUse (sum_totals s) = use).
  { unfold sum_totals in *.
    destruct (foldl sum_step _ _) as [tu ts]. simpl in *. subst tu ts.
    unfold use. case_decide; [done |].
    unfold quot, mul.
    rewrite (wrap64_in_range (100 * used))
      by (unfold in_range, min_int, max_int in *; lia).
    rewrite Z.quot_div_nonneg by lia.
    apply wrap64_in_range.
    assert (0 <= (100 * used) `div` total) by (apply Z.div_pos; lia).
    assert ((100 * used) `div` total <= 100 * used)
      by (apply Z.div_le_upper_bound; nia).
    unfold in_range, min_int, max_int in *. lia. }
  repeat split; try done.
  intros r t HP. unfold Print in HP.
  repeat (apply bind_Some in HP as (? & _ & HP)).
  injection HP as <-. simpl. by rewrite Huse.
Qed.

(** ** The chunk loop *)

Lemma chunks_app (a b : list event) : chunks (a ++ b) = chunks a ++ chunks b.
Proof. unfold chunks. apply omap_app. Qed.

Lemma chunks_cons req ans data rest :
  ReqBody req = ChunkBody data →
  chunks (EvRequest req ans :: rest) = data :: chunks rest.
Proof. intros Hb. unfold chunks. simpl. by rewrite Hb. Qed.

Lemma bytes_sent_app (a b : list event) :
  bytes_sent (a ++ b) = bytes_sent a + bytes_sent b.
Proof.
  unfold bytes_sent. rewrite chunks_app, concat_app, length_app.
  apply Nat2Z.inj_add.
Qed.

Lemma bytes_sent_chunk req ans data rest :
  ReqBody req = ChunkBody data →
  bytes_sent (EvRequest req ans :: rest)
  = Z.of_nat (length data) + bytes_sent rest.
Proof.
  intros Hb. unfold bytes_sent, chunks. simpl. rewrite Hb. simpl.
  rewrite length_app. apply Nat2Z.inj_add.
Qed.

Lemma chunk_failure_app (a b : list event) :
  chunk_failure (a ++ b)
  = match chunk_failure a with Some e => Some e | None => chunk_failure b end.
Proof.
  induction a as [| ev a IH]; [done |]. simpl.
  destruct ev as [req ans | | | |]; try done.
  destruct (ReqBody req); try done. by destruct (answer_error ans).
Qed.

Lemma take_prefix_le {A} (m n : nat) (l : list A) :
  (m ≤ n)%nat → take m l `prefix_of` take n l.
Proof.
  intros Hmn. replace (take m l) with (take m (take n l)).
  - apply prefix_take.
  - rewrite take_take. f_equal. lia.
Qed.

(** One turn of the loop, when the request can be built and the chunk is
    acknowledged. *)
Lemma write_loop_step_ok env c path size fuel rc tr0 :
  new_request_error env MethodPatch path = None →
  let chunk := take (Z.to_nat (ChunkSize c)) (rc_rest rc) in
  let rc' := (drain_limited (ChunkSize c) rc).2 in
  let req := mkRequest MethodPatch path [] (chunk_header (Count rc) size)
               (ChunkBody chunk) in
  let ans := round_trip env tr0 req in
  let tr1 := tr0 ++ [EvRequest req ans] in
  answer_error ans = None →
  write_loop env c path size (S fuel) rc tr0
  = if decide (size > -1 ∧ Count rc' >= size)
    then (Some (Count rc', None), tr1)
    else write_loop env c path size fuel rc' tr1.
Proof.
  intros Hnew. simpl. rewrite Hnew.
  unfold mbind, Eff_bind, send_chunk, transport_read, answer_error. simpl.
  destruct (round_trip _ _ _) as [e | resp]; [done |]. simpl.
  destruct (checkResponseError resp StatusOK); [done |].
  intros _. by case_decide.
Qed.

(** One turn of the loop, when the request can be built and the chunk is
    not acknowledged: the loop ends with the count of what the transport
    read, part of the chunk at most. *)
Lemma write_loop_step_fail env c path size fuel rc tr0 e :
  new_request_error env MethodPatch path = None →
  let chunk := take (Z.to_nat (ChunkSize c)) (rc_rest rc) in
  let req := mkRequest MethodPatch path [] (chunk_header (Count rc) size)
               (ChunkBody chunk) in
  let ans := round_trip env tr0 req in
  answer_error ans = Some e →
  ∃ part,
    part `prefix_of` chunk ∧
    write_loop env c path size (S fuel) rc tr0
    = (Some (Count rc + Z.of_nat (length part), Some e),
       tr0 ++ [EvRequest (mkRequest MethodPatch path []
                            (chunk_header (Count rc) size) (ChunkBody part))
                         ans]).
Proof.
  intros Hnew. simpl. rewrite Hnew.
  unfold mbind, Eff_bind, send_chunk, transport_read, answer_error. simpl.
  destruct (round_trip _ _ _) as [e' | resp].
  - intros [= <-]. eexists. split; [| done].
    apply take_prefix_le. lia.
  - simpl. destruct (checkResponseError resp StatusOK) as [e' |]; [| done].
    intros [= <-]. by eexists.
Qed.

(** Whatever the environment answers, the loop only issues chunk requests
    of its session, and the count it returns is the number of bytes it
    sent. *)
Lemma write_loop_requests env c path size fuel : ∀ rc tr0,
  ∃ new,
    (write_loop env c path size fuel rc tr0).2 = tr0 ++ new ∧
    chunk_requests_from path size (Count rc) new ∧
    (∀ n e, (write_loop env c path size fuel rc tr0).1 = Some (n, e) →
            n = Count rc + bytes_sent new) ∧
    (∀ e, chunk_failure new = Some e →
          ∃ n, (write_loop env c path size fuel rc tr0).1 = Some (n, Some e)).
Proof.
  induction fuel as [| fuel IH]; intros rc tr0.
  { exists []. simpl. rewrite app_nil_r. repeat split; done. }
  destruct (new_request_error env MethodPatch path) as [e0 |] eqn:Hnew.
  { exists []. simpl. rewrite Hnew, app_nil_r. simpl.
    repeat split; try done.
    intros n e [= <- <-]. unfold bytes_sent. simpl. lia. }
  set (chunk := take (Z.to_nat (ChunkSize c)) (rc_rest rc)).
  set (req := mkRequest MethodPatch path [] (chunk_header (Count rc) size)
                (ChunkBody chunk)).
  set (ans := round_trip env tr0 req).
  destruct (answer_error ans) as [e |] eqn:Hans.
  { destruct (write_loop_step_fail env c path size fuel rc tr0 e Hnew Hans)
      as (part & _ & ->).
    eexists [EvRequest _ ans]. simpl fst. simpl snd.
    split; [done |]. split; [simpl; by exists part |]. split.
    - intros n e' [= <- <-].
      rewrite (bytes_sent_chunk _ _ part) by done.
      unfold bytes_sent. simpl. lia.
    - simpl. fold ans. rewrite Hans. intros e' [= <-]. eauto. }
  rewrite write_loop_step_ok by done.
  fold chunk. fold req. fold ans.
  assert (Hcount : Count (drain_limited (ChunkSize c) rc).2
                   = Count rc + Z.of_nat (length chunk)) by done.
  assert (Hone :
    chunk_requests_from path size (Count rc) [EvRequest req ans] ∧
    Count (drain_limited (ChunkSize c) rc).2
      = Count rc + bytes_sent [EvRequest req ans] ∧
    chunk_failure [EvRequest req ans] = answer_error ans).
  { repeat split.
    - simpl. by exists chunk.
    - rewrite Hcount, (bytes_sent_chunk _ _ chunk) by done.
      unfold bytes_sent. simpl. lia.
    - simpl. by destruct (answer_error ans). }
  destruct Hone as (Hreq1 & Hn1 & Hf1).
  case_decide as Hdone.
  { exists [EvRequest req ans]. simpl fst. simpl snd.
    repeat split; try done.
    - by intros n e' [= <- <-].
    - rewrite Hf1, Hans. done. }
  destruct (IH (drain_limited (ChunkSize c) rc).2 (tr0 ++ [EvRequest req ans]))
    as (new & Htr & Hreq & Hn & Hf).
  exists (EvRequest req ans :: new). repeat split.
  - rewrite Htr. by rewrite <- app_assoc.
  - simpl. exists chunk. split; [done |]. by rewrite <- Hcount.
  - intros n e Hres. rewrite (Hn n e Hres), Hcount.
    rewrite (bytes_sent_chunk _ _ chunk) by done. lia.
  - simpl. rewrite Hans. done.
Qed.

Lemma chunk_requests_from_app path size off pre req ans post :
  chunk_requests_from path size off (pre ++ EvRequest req ans :: post) →
  ∃ data, req = mkRequest MethodPatch path []
                  (chunk_header (off + bytes_sent pre) size) (ChunkBody data).
Proof.
  revert off. induction pre as [| ev pre IH]; intros off; simpl.
  - intros (data & -> & _). exists data.
    unfold bytes_sent. simpl. by rewrite Z.add_0_r.
  - destruct ev as [req' ans' | | | |]; try done.
    intros (data & -> & Hrest). destruct (IH _ Hrest) as (data' & ->).
    exists data'. rewrite (bytes_sent_chunk _ _ data) by done.
    by rewrite Z.add_assoc.
Qed.

Lemma chunk_header_get (off size : Z) :
  header_get (chunk_header off size) "efes-file-offset" = Some (FormatInt off) ∧
  header_get (chunk_header off size) "efes-file-length"
  = if decide (0 <= size) then Some (FormatInt size) else None.
Proof.
  unfold chunk_header. split; [done |].
  destruct (decide (size > -1)), (decide (0 <= size)); try lia; done.
Qed.

(** C7: every chunk request of a session carries, as efes-file-offset, the
    number of bytes the requests before it in the session carried, and
    carries efes-file-length, the declared size, exactly when that size is
    known (not negative). *)
Theorem chunk_requests_carry_offset (env : Env) (c : Client) (path : string)
    (size : Z) (r : list byte) (fuel : nat) (tr0 pre post : list event)
    (req : Request) (ans : error + Response) :
  (write env c path size r fuel tr0).2 = tr0 ++ pre ++ EvRequest req ans :: post →
  Method req = MethodPatch ∧ URL req = path ∧
  header_get (Header req) "efes-file-offset" = Some (FormatInt (bytes_sent pre)) ∧
  header_get (Header req) "efes-file-length"
  = if decide (0 <= size) then Some (FormatInt size) else None.
Proof.
  intros Htr. unfold write in Htr.
  destruct (write_loop_requests env c path size fuel (newReadCounter r) tr0)
    as (new & Hnew & Hreq & _).
  rewrite Htr in Hnew. apply app_inv_head in Hnew. subst new.
  apply chunk_requests_from_app in Hreq as (data & ->). simpl.
  repeat split; apply chunk_header_get.
Qed.

(** ** Known size *)

Lemma write_loop_known env c path size :
  0 < ChunkSize c → acknowledges env path →
  ∀ fuel rc tr0,
    rc_rest rc ≠ [] → 0 <= Count rc →
    size = Count rc + Z.of_nat (length (rc_rest rc)) →
    (length (rc_rest rc) < fuel)%nat →
    ∃ new,
      write_loop env c path size fuel rc tr0 = (Some (size, None), tr0 ++ new) ∧
      concat (chunks new) = rc_rest rc ∧
      Forall (λ b, b ≠ []) (chunks new) ∧
      length (chunks new) = length new ∧
      (∀ pre post, new = pre ++ post → pre ≠ [] → post ≠ [] →
                   Count rc + bytes_sent pre < size).
Proof.
  intros Hchunk [Hnew Hack].
  induction fuel as [| fuel IH]; intros rc tr0 Hrest Hcount Hsize Hfuel; [lia |].
  rewrite write_loop_step_ok by (done || by apply Hack).
  set (n := Z.to_nat (ChunkSize c)).
  set (req := mkRequest _ _ _ _ _).
  assert (Hn : (1 <= n)%nat) by (unfold n; lia).
  assert (Hlen : length (rc_rest rc) ≠ 0%nat) by by destruct (rc_rest rc).
  assert (Hc' : Count (drain_limited (ChunkSize c) rc).2
                = Count rc + Z.of_nat (length (take n (rc_rest rc)))) by done.
  rewrite Hc', length_take. case_decide as Hdone.
  - exists [EvRequest req (round_trip env tr0 req)].
    assert (Hge : (length (rc_rest rc) <= n)%nat) by lia.
    repeat split.
    + do 3 f_equal. lia.
    + rewrite (chunks_cons _ _ (take n (rc_rest rc))) by done.
      simpl. rewrite take_ge by done. apply app_nil_r.
    + rewrite (chunks_cons _ _ (take n (rc_rest rc))) by done.
      rewrite take_ge by done. by repeat constructor.
    + intros [| ? [| ? ?]] [| ? ?] [=]; done.
  - assert (Hlt : (n < length (rc_rest rc))%nat) by lia.
    destruct (IH (drain_limited (ChunkSize c) rc).2
                 (tr0 ++ [EvRequest req (round_trip env tr0 req)]))
      as (new & Hrun & Hcat & Hne & Hall & Hpre).
    + simpl. fold n. intros Hnil. apply (f_equal length) in Hnil.
      rewrite length_drop in Hnil. simpl in Hnil. lia.
    + rewrite Hc'. lia.
    + rewrite Hc', length_take. simpl. fold n. rewrite length_drop. lia.
    + simpl. fold n. rewrite length_drop. lia.
    + exists (EvRequest req (round_trip env tr0 req) :: new). repeat split.
      * rewrite Hrun. by rewrite <- app_assoc.
      * rewrite (chunks_cons _ _ (take n (rc_rest rc))) by done.
        simpl. rewrite Hcat. apply take_drop.
      * rewrite (chunks_cons _ _ (take n (rc_rest rc))) by done.
        constructor; [| done].
        intros Hnil. apply (f_equal length) in Hnil.
        rewrite length_take in Hnil. simpl in Hnil. lia.
      * rewrite (chunks_cons _ _ (take n (rc_rest rc))) by done.
        simpl. by rewrite Hall.
      * intros [| ev pre] post Heq Hpre0 Hpost; [done |].
        injection Heq as <- ->.
        rewrite (bytes_sent_chunk _ _ (take n (rc_rest rc))) by done.
        rewrite length_take.
        destruct pre as [| ev' pre'].
        -- unfold bytes_sent. simpl. lia.
        -- specialize (Hpre (ev' :: pre') post eq_refl ltac:(done) Hpost).
           rewrite Hc', length_take in Hpre. lia.
Qed.

Example write_hello_in_chunks_of_2 :
  (write calm cl2 dev_path 5 hello 3 []).1 = Some (5, None) ∧
  chunks (write calm cl2 dev_path 5 hello 3 []).2
  = [list_byte_of_string "he"; list_byte_of_string "ll"; list_byte_of_string "o"].
Proof. split; reflexivity. Qed.

(** C1, as stated, fails: for a declared size of 0 the loop sends one chunk
    request, and its body is empty. *)
Lemma write_empty_file_sends_empty_chunk :
  write calm cl2 dev_path 0 [] 1 []
  = (Some (0, None),
     [EvRequest
        (mkRequest MethodPatch dev_path []
           [("efes-file-offset", "0"); ("efes-file-length", "0")]%string
           (ChunkBody []))
        (inr (mkResponse 200 "hello"))]).
Proof. reflexivity. Qed.

(** C1 (amended): for a declared size [N >= 0] that is the length of the
    source, a positive chunk size and a storage device that acknowledges
    every chunk, the loop returns [N] without error once the fuel exceeds
    [N]; the bodies of its requests, in order, make up the source; it goes
    on to a next request only while fewer than [N] bytes were sent, but it
    always sends a first one: for [N > 0] no request has an empty body, for
    [N = 0] exactly one request is sent and its body is empty. *)
Theorem write_known_size_stops (env : Env) (c : Client) (path : string)
    (r : list byte) (fuel : nat) (tr0 : list event) :
  let N := Z.of_nat (length r) in
  0 < ChunkSize c → acknowledges env path → (length r < fuel)%nat →
  ∃ new,
    write env c path N r fuel tr0 = (Some (N, None), tr0 ++ new) ∧
    concat (chunks new) = r ∧
    length (chunks new) = length new ∧
    (N = 0 → chunks new = [[]]) ∧
    (0 < N → Forall (λ b, b ≠ []) (chunks new)) ∧
    (∀ pre post, new = pre ++ post → pre ≠ [] → post ≠ [] →
                 bytes_sent pre < N).
Proof.
  intros N Hchunk Hack Hfuel. unfold write.
  destruct r as [| b r].
  - destruct fuel as [| fuel]; [simpl in Hfuel; lia |].
    destruct Hack as [Hnew Hack].
    rewrite write_loop_step_ok by (done || by apply Hack).
    set (req := mkRequest _ _ _ _ _).
    rewrite decide_True by (simpl; unfold N; simpl; lia).
    exists [EvRequest req (round_trip env tr0 req)].
    split_and!; try done.
    + simpl. by rewrite take_nil.
    + unfold chunks. simpl. by rewrite take_nil.
    + intros _. unfold chunks. simpl. by rewrite take_nil.
    + intros [| ? [| ? ?]] [| ? ?] [=]; done.
  - destruct (write_loop_known env c path N Hchunk Hack fuel
                (newReadCounter (b :: r)) tr0)
      as (new & Hrun & Hcat & Hne & Hall & Hpre); try done.
    exists new. split_and!; done.
Qed.

(** The five bytes of [hello], two per chunk. *)
Lemma write_known_size_stops_witness :
  ∃ new,
    write calm cl2 dev_path 5 hello 6 [] = (Some (5, None), [] ++ new) ∧
    concat (chunks new) = hello ∧
    length (chunks new) = length new ∧
    (5 = 0 → chunks new = [[]]) ∧
    (0 < 5 → Forall (λ b, b ≠ []) (chunks new)) ∧
    (∀ pre post, new = pre ++ post → pre ≠ [] → post ≠ [] →
                 bytes_sent pre < 5).
Proof.
  apply (write_known_size_stops calm cl2 dev_path hello 6 []).
  - simpl. lia.
  - split; [reflexivity | intros; reflexivity].
  - simpl. lia.
Defined.

(** ** Unknown size *)

(** With the size unknown the loop has no way out but an error. *)
Lemma write_loop_unknown_size_no_success env c path fuel : ∀ rc tr0 n,
  (write_loop env c path (-1) fuel rc tr0).1 ≠ Some (n, None).
Proof.
  induction fuel as [| fuel IH]; intros rc tr0 n; [done |].
  destruct (new_request_error env MethodPatch path) eqn:Hnew.
  { simpl. by rewrite Hnew. }
  destruct (answer_error
              (round_trip env tr0
                 (mkRequest MethodPatch path [] (chunk_header (Count rc) (-1))
                    (ChunkBody (take (Z.to_nat (ChunkSize c)) (rc_rest rc))))))
    as [e |] eqn:Hans.
  { by destruct (write_loop_step_fail env c path (-1) fuel rc tr0 e Hnew Hans)
      as (part & _ & ->). }
  rewrite write_loop_step_ok by done.
  rewrite decide_False by lia. apply IH.
Qed.

Lemma write_loop_unknown_size_spins env c path :
  acknowledges env path →
  ∀ fuel rc tr0, ∃ new,
    write_loop env c path (-1) fuel rc tr0 = (None, tr0 ++ new) ∧
    length new = fuel.
Proof.
  intros [Hnew Hack]. induction fuel as [| fuel IH]; intros rc tr0.
  { exists []. by rewrite app_nil_r. }
  rewrite write_loop_step_ok by (done || by apply Hack).
  set (req := mkRequest _ _ _ _ _).
  rewrite decide_False by lia.
  destruct (IH (drain_limited (ChunkSize c) rc).2
               (tr0 ++ [EvRequest req (round_trip env tr0 req)]))
    as (new & -> & Hlen).
  exists (EvRequest req (round_trip env tr0 req) :: new).
  split; [by rewrite <- app_assoc | simpl; by rewrite Hlen].
Qed.

Example write_stream_keeps_sending :
  chunks (write calm cl2 dev_path (-1) hello 5 []).2
  = [list_byte_of_string "he"; list_byte_of_string "ll";
     list_byte_of_string "o"; []; []].
Proof. reflexivity. Qed.

(** ** Upload sessions *)

Lemma commits_app (a b : list event) : commits (a ++ b) = commits a ++ commits b.
Proof. unfold commits. apply omap_app. Qed.

Lemma silent_nil : silent [].
Proof. done. Qed.

Lemma silent_app (a b : list event) : silent a → silent b → silent (a ++ b).
Proof.
  intros (Ha1 & Ha2 & Ha3) (Hb1 & Hb2 & Hb3). unfold silent.
  by rewrite chunks_app, chunk_failure_app, commits_app, Ha1, Ha2, Ha3.
Qed.


(** A call to the tracker sends at most one request, the one [request]
    builds; it is sent whenever the call succeeds. *)
Lemma request_events {T : Type} env c method urlPath params statusCode
    (response : option (string → error * T + T)) tr0 :
  let req :=
    mkRequest method (trackerURL c urlPath)
      (if decide (method = MethodGet) then params else [])
      (if decide (method = MethodPost)
       then [("Content-Type", "application/x-www-form-urlencoded")]%string else [])
      (if decide (method = MethodPost) then FormBody params else NoBody) in
  let run := request env c method urlPath params statusCode response tr0 in
  (run.2 = tr0 ∧ ∃ e, run.1 = inl e) ∨
  (run.2 = tr0 ++ [EvRequest req (round_trip env tr0 req)] ∧
   ∀ v, run.1 = inr v →
        ∃ resp, round_trip env tr0 req = inr resp ∧
                checkResponseError resp statusCode = None).
Proof.
  intros req run. subst run. unfold request.
  destruct (new_request_error env method _) as [e |]; [left; eauto |].
  right. fold req. unfold mbind, Eff_bind, Do. simpl.
  destruct (round_trip env tr0 req) as [e | resp]; [done |].
  destruct (checkResponseError resp statusCode) eqn:Hc; [done |].
  split; [| eauto].
  destruct response as [decode |]; [| done]. by destruct (decode _) as [[] |].
Qed.



Lemma chunk_requests_commits path size off new :
  chunk_requests_from path size off new → commits new = [].
Proof.
  revert off. induction new as [| ev new IH]; intros off; [done |].
  destruct ev as [req ans | | | |]; try done.
  intros (data & -> & Hrest). simpl. eauto.
Qed.


Example Write_file_that_grew :
  (Write grown cl2 "k" "f" 2 []).1 = Some None ∧
  commits (Write grown cl2 "k" "f" 2 []).2 = [("k", "4", "42", "1")]%string.
Proof. split; reflexivity. Qed.

Example Write_hello :
  (Write calm cl2 "k" "f" 3 []).1 = Some None ∧
  commits (Write calm cl2 "k" "f" 3 []).2 = [("k", "5", "42", "1")]%string ∧
  chunks (Write calm cl2 "k" "f" 3 []).2
  = [list_byte_of_string "he"; list_byte_of_string "ll"; list_byte_of_string "o"].
Proof. split_and!; reflexivity. Qed.


Lemma calm_acknowledges (path : string) : acknowledges calm path.
Proof. split; [reflexivity | intros; reflexivity]. Qed.

(** C2 fails on the code: [Write] from standard input (size unknown, -1)
    against a tracker and a storage device that answer every request with
    200 has not returned after any number of turns of the chunk loop: past
    create-open it sends one chunk request per turn, and the short last
    chunk does not end it. *)
Theorem Write_from_stdin_never_returns (fuel : nat) :
  ∃ new,
    Write calm cl2 "k" "-" fuel [] = (None, new) ∧
    length new = S fuel ∧ commits new = [].
Proof.
  unfold Write. rewrite decide_True by done.
  unfold Write_session, mbind, Eff_bind.
  destruct (createOpen calm cl2 (-1) []) as [[co err] tr1] eqn:Hopen.
  vm_compute in Hopen. injection Hopen as <- <- <-.
  unfold write. set (tr1 := [EvRequest _ _]).
  destruct (write_loop_unknown_size_spins calm cl2 dev_path
              (calm_acknowledges dev_path) fuel (newReadCounter (stdin calm)) tr1)
    as (new & Hrun & Hlen).
  destruct (write_loop_requests calm cl2 dev_path (-1) fuel
              (newReadCounter (stdin calm)) tr1) as (new' & Htr & Hreq & _).
  change (co_Path _) with dev_path. rewrite Hrun in Htr |- *.
  cbn [snd] in Htr. apply app_inv_head in Htr as <-.
  exists (tr1 ++ new). split_and!; [done | |].
  - rewrite length_app, Hlen. done.
  - rewrite commits_app, (chunk_requests_commits _ _ _ _ Hreq). done.
Qed.


(** ** Reading *)

Lemma no_create_app (a b : list event) :
  no_create a → no_create b → no_create (a ++ b).
Proof. unfold no_create. rewrite Forall_app. by split. Qed.

Lemma no_create_split p r (a b pre post : list event) p' r' :
  no_create a → no_create b →
  a ++ EvCreate p r :: b = pre ++ EvCreate p' r' :: post →
  pre = a ∧ p' = p.
Proof.
  intros Ha Hb. revert pre. induction Ha as [| ev a Hev Ha IH]; intros pre Heq.
  - destruct pre as [| ev' pre]; simplify_eq/=; [done |].
    unfold no_create in Hb. rewrite Forall_app, Forall_cons in Hb.
    by destruct Hb as (_ & ? & _).
  - destruct pre as [| ev' pre]; [by simplify_eq/= |].
    injection Heq as <- Heq. by destruct (IH _ Heq) as [-> ->].
Qed.

Lemma no_create_absent (a pre post : list event) p r :
  no_create a → a ≠ pre ++ EvCreate p r :: post.
Proof.
  intros Ha ->. unfold no_create in Ha.
  rewrite Forall_app, Forall_cons in Ha. by destruct Ha as (_ & ? & _).
Qed.

Lemma getPaths_events env c key tr0 :
  ∃ new, (getPaths env c key tr0).2 = tr0 ++ new ∧ no_create new.
Proof.
  unfold getPaths, mbind, Eff_bind.
  pose proof (request_events env c MethodGet "get-paths" [("key"%string, key)]
                StatusOK (Some (decode_GetPaths env)) tr0) as Hreq.
  simpl in Hreq. destruct (request _ _ _ _ _ _ _ _) as [r tr1].
  simpl in Hreq.
  assert (Htr1 : ∃ new, tr1 = tr0 ++ new ∧ no_create new).
  { destruct Hreq as [[-> _] | [-> _]].
    - exists []. rewrite app_nil_r. by split; [| constructor].
    - eexists; split; [done |]. by repeat constructor. }
  by destruct r as [[? []] | []].
Qed.

Lemma Get_events env url tr1 :
  ∃ new, (Get env url tr1).2 = tr1 ++ new ∧ no_create new.
Proof.
  unfold Get. destruct (new_request_error env MethodGet url).
  - exists []. rewrite app_nil_r. by split; [| constructor].
  - eexists; split; [done |]. by repeat constructor.
Qed.

(** [Read], step by step. *)
Lemma Read_shape env c key path tr0 :
  let '((paths, err), tr1) := getPaths env c key tr0 in
  let run := Read env c key path tr0 in
  match err, paths with
  | Some e, _ => run = (Some e, tr1)
  | None, [] => run = (Some NoPathReturned, tr1)
  | None, u :: _ =>
      let '(r, tr2) := Get env u tr1 in
      match r with
      | inl e => run = (Some e, tr2)
      | inr resp =>
          match checkResponseError resp StatusOK with
          | Some e => run = (Some e, tr2)
          | None =>
              if decide (path = "-"%string)
              then ∃ tail, run.2 = tr2 ++ tail ∧ no_create tail
              else ∃ r tail, run.2 = tr2 ++ EvCreate path r :: tail ∧
                             no_create tail
          end
      end
  end.
Proof.
  unfold Read, mbind, Eff_bind.
  destruct (getPaths env c key tr0) as [[paths err] tr1].
  destruct err as [e |]; [done |]. destruct paths as [| u rest]; [done |].
  destruct (Get env u tr1) as [[e | resp] tr2]; [done |].
  destruct (checkResponseError resp StatusOK); [done |].
  assert (Hcc : ∀ f tr, ∃ tail,
            (copy_and_close env f resp tr).2 = tr ++ tail ∧ no_create tail).
  { intros f tr. unfold copy_and_close, mbind, Eff_bind, Copy, Close.
    destruct (copy_error env tr f); simpl;
      (eexists; split; [by rewrite <- app_assoc | by repeat constructor]). }
  case_decide; [apply Hcc |].
  unfold Create. simpl. destruct (fs_create env tr2 path) as [e |].
  - exists (Some e), []. by split; [| constructor].
  - destruct (Hcc (Named path) (tr2 ++ [EvCreate path None]))
      as (tail & -> & Htail).
    exists None, tail. by rewrite <- app_assoc.
Qed.

Example Read_to_file :
  Read calm cl2 "k" "out" []
  = (None,
     [EvRequest (mkRequest MethodGet "http://tracker/get-paths"
                   [("key", "k")] [] NoBody)
                (inr (mkResponse 200 "hello"));
      EvRequest (mkRequest MethodGet dev_path [] [] NoBody)
                (inr (mkResponse 200 "hello"));
      EvCreate "out" None;
      EvCopy (Named "out") "hello" None;
      EvClose (Named "out") None]%string).
Proof. reflexivity. Qed.

(** C10: a destination file is created by [Read] only for a destination
    other than "-", and only right after the tracker returned a non-empty
    list of paths and the fetch of the first one passed the 200 check; if
    the resolution fails, yields no path, or the fetch fails or has a
    status other than 200, [Read] returns an error and creates no file. *)
Theorem Read_creates_after_checks (env : Env) (c : Client) (key path : string)
    (tr0 new : list event) (res : option error) :
  Read env c key path tr0 = (res, tr0 ++ new) →
  (∀ pre p r post, new = pre ++ EvCreate p r :: post →
     p = path ∧ path ≠ "-"%string ∧
     ∃ u rest tr1 resp,
       getPaths env c key tr0 = ((u :: rest, None), tr1) ∧
       Get env u tr1 = (inr resp, tr0 ++ pre) ∧
       StatusCode resp = 200) ∧
  (∀ paths err tr1, getPaths env c key tr0 = ((paths, err), tr1) →
     is_Some err ∨ paths = [] ∨
     (∃ u rest, paths = u :: rest ∧
        ∀ resp tr2, Get env u tr1 = (inr resp, tr2) → StatusCode resp ≠ 200) →
     is_Some res ∧ no_create new).
Proof.
  intros Hrun. pose proof (Read_shape env c key path tr0) as Hshape.
  destruct (getPaths_events env c key tr0) as (e1 & He1 & Hn1).
  destruct (getPaths env c key tr0) as [[paths err] tr1]. simpl in He1.
  subst tr1. rewrite Hrun in Hshape. simpl in Hshape.
  assert (Hstop : ∀ e tr2 e2, (res, tr0 ++ new) = (Some e, tr2) →
            tr2 = (tr0 ++ e1) ++ e2 → no_create e2 →
            is_Some res ∧ no_create new ∧
            ∀ pre p r post, new ≠ pre ++ EvCreate p r :: post).
  { intros e tr2 e2 [= -> Htr] -> He2. rewrite <- app_assoc in Htr.
    apply app_inv_head in Htr as ->.
    pose proof (no_create_app _ _ Hn1 He2) as Hn.
    split_and!; [done | done |]. intros. by apply no_create_absent. }
  destruct err as [e |].
  { destruct (Hstop e (tr0 ++ e1) [] Hshape) as (Hres & Hnew & Habs);
      [by rewrite app_nil_r | constructor |].
    split; [intros pre p r post Heq; by destruct (Habs pre p r post) |].
    by intros ??? [= <- <- <-] _. }
  destruct paths as [| u rest].
  { destruct (Hstop _ (tr0 ++ e1) [] Hshape) as (Hres & Hnew & Habs);
      [by rewrite app_nil_r | constructor |].
    split; [intros pre p r post Heq; by destruct (Habs pre p r post) |].
    by intros ??? [= <- <- <-] _. }
  destruct (Get_events env u (tr0 ++ e1)) as (e2 & He2 & Hn2).
  destruct (Get env u (tr0 ++ e1)) as [[e | resp] tr2] eqn:HGet;
    simpl in He2; subst tr2.
  { destruct (Hstop _ _ e2 Hshape eq_refl Hn2) as (Hres & Hnew & Habs).
    split; [intros pre p r post Heq; by destruct (Habs pre p r post) |].
    by intros ??? [= <- <- <-] _. }
  destruct (checkResponseError resp StatusOK) as [e |] eqn:Hcheck.
  { destruct (Hstop _ _ e2 Hshape eq_refl Hn2) as (Hres & Hnew & Habs).
    split; [intros pre p r post Heq; by destruct (Habs pre p r post) |].
    by intros ??? [= <- <- <-] _. }
  apply checkResponseError_OK in Hcheck.
  split.
  - intros pre p r post ->. case_decide as Hpath.
    + destruct Hshape as (tail & Htr & Htail). simpl in Htr.
      rewrite <- !app_assoc in Htr. apply app_inv_head in Htr.
      exfalso. symmetry in Htr. revert Htr. apply no_create_absent.
      by repeat apply no_create_app.
    + destruct Hshape as (r' & tail & Htr & Htail). simpl in Htr.
      rewrite <- !app_assoc in Htr. apply app_inv_head in Htr.
      rewrite app_assoc in Htr. symmetry in Htr.
      apply no_create_split in Htr as [-> ->];
        [| by apply no_create_app | done].
      split_and!; [done | done |].
      exists u, rest, (tr0 ++ e1), resp. by rewrite app_assoc.
  - intros ??? [= <- <- <-] [[? [=]] | [[=] | (u' & rest' & [= <- <-] & Hbad)]].
    by destruct (Hbad resp _ HGet).
Qed.

(** Reading into the file ["out"] in the calm world. *)
Lemma Read_creates_after_checks_witness :
  "out"%string = "out"%string ∧ "out"%string ≠ "-"%string ∧
  ∃ u rest tr1 resp,
    getPaths calm cl2 "k" [] = ((u :: rest, None), tr1) ∧
    Get calm u tr1 = (inr resp, [] ++ take 2 (Read calm cl2 "k" "out" []).2) ∧
    StatusCode resp = 200.
Proof.
  exact (proj1 (Read_creates_after_checks calm cl2 "k" "out" []
                  (Read calm cl2 "k" "out" []).2 None eq_refl)
           (take 2 (Read calm cl2 "k" "out" []).2) "out"%string None
           (drop 3 (Read calm cl2 "k" "out" []).2) eq_refl).
Defined.

(** ** The status view *)

Lemma collect_living (hostsByID : gmap Z Host.t) (devs : list Device.t) :
  collect hostsByID devs = join_host hostsByID <$> living devs.
Proof.
  unfold collect.
  enough (Hacc : ∀ acc,
            foldl (λ ret d,
                     if decide (Device.Status d = "dead"%string) then ret
                     else ret ++ [join_host hostsByID d]) acc devs
            = acc ++ (join_host hostsByID <$> living devs)) by apply Hacc.
  induction devs as [| d devs IH]; intros acc; simpl.
  - by rewrite app_nil_r.
  - rewrite IH. unfold living. rewrite filter_cons.
    destruct (decide (Device.Status d = "dead"%string)) as [Hd | Hd].
    + by rewrite decide_False by (by intros ?).
    + rewrite decide_True by done. by rewrite <- app_assoc.
Qed.

Lemma join_host_Device (m : gmap Z Host.t) (d : Device.t) :
  Device (join_host m d) = d.
Proof. unfold join_host. by destruct (m !! _). Qed.

Lemma living_not_dead (m : gmap Z Host.t) (devs : list Device.t) :
  Forall (λ d, Device.Status (Device d) ≠ "dead"%string)
         (join_host m <$> living devs).
Proof.
  rewrite Forall_fmap. apply Forall_forall. intros d Hd. simpl.
  rewrite join_host_Device. unfold living in Hd.
  by apply list_elem_of_filter in Hd as [? _].
Qed.

(** [Status], once both tracker calls succeeded. *)
Lemma Status_view `{Sorting} (t : Tracker) (sortBy : string) devs hosts :
  get_devices t = inr devs → get_hosts t = inr hosts →
  let natural := join_host (index_hosts hosts) <$> living devs in
  Status t sortBy
  = match sort_key sortBy with
    | Some k => (Some (mkEfesStatus (Sort (Less k) natural)), None, [])
    | None => (Some (mkEfesStatus natural), None,
               [Warningln ["Sort key is not valid:"; sortBy]%string])
    end.
Proof.
  intros Hd Hh natural. unfold Status, sort_key.
  rewrite Hd, Hh, collect_living. fold natural.
  by repeat case_decide.
Qed.

Lemma row_status (r : Render) (d : deviceStatus) (cells : list string) :
  row r d = Some cells → cells !! 3%nat = Some (Device.Status (Device d)).
Proof.
  unfold row. intros Hrow.
  repeat (apply bind_Some in Hrow as (? & _ & Hrow)).
  by injection Hrow as <-.
Qed.

Lemma Print_rows (r : Render) (s : efesStatus) (tbl : Table) :
  Print r s = Some tbl →
  Forall2 (λ d cells, row r d = Some cells) (devices s) (rows tbl).
Proof.
  unfold Print. intros HP.
  do 3 (apply bind_Some in HP as (? & _ & HP)).
  apply bind_Some in HP as (data & Hdata & HP).
  injection HP as <-. simpl. by apply mapM_Some_1.
Qed.

(** The orderings of the five keys are strict weak orderings, and a table
    that is sorted under one of them is ordered by its key. *)
Lemma String_compare_le_trans (x y z : string) :
  String.compare x y ≠ Gt → String.compare y z ≠ Gt → String.compare x z ≠ Gt.
Proof.
  revert y z. induction x as [| a x IH]; intros [| b y] [| c z]; simpl; try done.
  unfold Ascii.compare.
  destruct (N.compare_spec (N_of_ascii a) (N_of_ascii b)) as [Hab | Hab | Hab],
           (N.compare_spec (N_of_ascii b) (N_of_ascii c)) as [Hbc | Hbc | Hbc],
           (N.compare_spec (N_of_ascii a) (N_of_ascii c)) as [Hac | Hac | Hac];
    intros Hxy Hyz; try done; try lia; by apply (IH y z).
Qed.

Lemma String_ltb_false (a b : string) :
  String.ltb b a = false ↔ String.compare a b ≠ Gt.
Proof.
  unfold String.ltb. rewrite (String.compare_antisym a b).
  by destruct (String.compare b a).
Qed.


Lemma String_ltb_strict_weak : strict_weak String.ltb.
Proof.
  split.
  - intros x y. unfold String.ltb. rewrite (String.compare_antisym y x).
    by destruct (String.compare x y).
  - intros x y z. rewrite !String_ltb_false. apply String_compare_le_trans.
Qed.

Lemma strict_weak_on {A B : Type} (f : A → B) (less : B → B → bool) :
  strict_weak less → strict_weak (λ a b, less (f a) (f b)).
Proof. intros [Hasym Htrans]. split; eauto. Qed.

Lemma Less_strict_weak `{Sorting} (k : sortKey) : strict_weak (Less k).
Proof.
  destruct k; simpl.
  - apply (strict_weak_on Hostname), String_ltb_strict_weak.
  - split.
    + intros x y Hxy. apply Z.ltb_lt in Hxy. apply Z.ltb_ge. lia.
    + intros x y z Hyx Hzy. apply Z.ltb_ge in Hyx, Hzy. apply Z.ltb_ge. lia.
  - apply (strict_weak_on (λ d, Device.BytesTotal (Device d))),
      less_count_strict_weak.
  - apply (strict_weak_on (λ d, Device.BytesUsed (Device d))),
      less_count_strict_weak.
  - apply (strict_weak_on (λ d, Device.BytesFree (Device d))),
      less_count_strict_weak.
Qed.




(** C9: the view [Status] builds holds no dead device: its rows are the
    devices of the inventory that are not dead, joined with their hosts;
    the totals [Print] computes are those of these devices alone, and no
    row [Print] renders has the device status "dead". *)
Theorem Status_excludes_dead `{Sorting} (t : Tracker) (sortBy : string)
    (devs : list Device.t) (hosts : list Host.t) :
  get_devices t = inr devs → get_hosts t = inr hosts →
  let alive := join_host (index_hosts hosts) <$> living devs in
  ∃ st log,
    Status t sortBy = (Some st, None, log) ∧
    devices st ≡ₚ alive ∧
    Forall (λ d, Device.Status (Device d) ≠ "dead"%string) (devices st) ∧
    sum_totals st = sum_totals (mkEfesStatus alive) ∧
    (∀ r tbl, Print r st = Some tbl →
       length (rows tbl) = length alive ∧
       Forall (λ cells, cells !! 3%nat ≠ Some "dead"%string) (rows tbl)).
Proof.
  intros Hd Hh alive.
  assert (Hview : ∃ st log, Status t sortBy = (Some st, None, log) ∧
                            devices st ≡ₚ alive).
  { rewrite (Status_view t sortBy devs hosts Hd Hh). fold alive.
    destruct (sort_key sortBy) as [k |]; eexists _, _; (split; [done |]);
      simpl; [apply Sort_perm | done]. }
  destruct Hview as (st & log & Hrun & Hperm).
  assert (Halive : Forall (λ d, Device.Status (Device d) ≠ "dead"%string)
                          (devices st)).
  { rewrite Hperm. apply living_not_dead. }
  exists st, log. split_and!; try done.
  - by apply sum_totals_perm.
  - intros r tbl HP. apply Print_rows in HP. split.
    + rewrite <- (Forall2_length _ _ _ HP). by rewrite Hperm.
    + revert Halive HP. generalize (devices st) (rows tbl).
      intros ds rws Hall HP.
      induction HP as [| d cells ds rws Hrow _ IH]; [constructor |].
      apply Forall_cons in Hall as [Hd0 Hall].
      constructor; [| by apply IH].
      rewrite (row_status _ _ _ Hrow). simpl in Hd0. congruence.
Qed.

(** Whatever the library sort and the comparison of missing counts, the
    sample inventory sorted by device shows device 2 before device 3, and
    sorted by size it shows them in the order of their sizes. *)
Example Status_by_device `{Sorting} :
  Status inventory "device"
  = (Some (mkEfesStatus [mkDeviceStatus dev2 "alpha" "alive" 0;
                         mkDeviceStatus dev3 "alpha" "alive" 0]),
     None, []).
Proof.
  rewrite (Status_view inventory "device" [dev3; dev1; dev2] [host7]) by done.
  change (sort_key "device") with (Some byDevID). do 3 f_equal.
  change (join_host _ <$> _)
    with [mkDeviceStatus dev3 "alpha" "alive" 0;
          mkDeviceStatus dev2 "alpha" "alive" 0].
  set (natural := [_; _]).
  pose proof (Sort_perm (Less byDevID) natural) as Hperm.
  pose proof (Sort_sorted (Less byDevID) natural (Less_strict_weak byDevID))
    as Hsorted.
  destruct (Sort (Less byDevID) natural) as [| a [| b [| ? ?]]];
    try by apply Permutation_length in Hperm.
  apply Permutation_sym, Permutation_length_2_inv in Hperm as [[= -> ->] | [= -> ->]];
    [| done].
  apply StronglySorted_inv in Hsorted as [_ Hall].
  apply Forall_cons in Hall as [Hless _]. done.
Qed.

Example Status_unknown_key :
  @Status sample_sorting inventory "colour"
  = (Some (mkEfesStatus [mkDeviceStatus dev3 "alpha" "alive" 0;
                         mkDeviceStatus dev2 "alpha" "alive" 0]),
     None, [Warningln ["Sort key is not valid:"; "colour"]%string]).
Proof. vm_compute. reflexivity. Qed.


(** The sample inventory holds a dead device. *)
Lemma Status_excludes_dead_witness :
  let alive := join_host (index_hosts [host7]) <$> living [dev3; dev1; dev2] in
  ∃ st log,
    @Status sample_sorting inventory "size" = (Some st, None, log) ∧
    devices st ≡ₚ alive ∧
    Forall (λ d, Device.Status (Device d) ≠ "dead"%string) (devices st) ∧
    sum_totals st = sum_totals (mkEfesStatus alive) ∧
    (∀ r tbl, Print r st = Some tbl →
       length (rows tbl) = length alive ∧
       Forall (λ cells, cells !! 3%nat ≠ Some "dead"%string) (rows tbl)).
Proof.
  exact (@Status_excludes_dead sample_sorting inventory "size"
           [dev3; dev1; dev2] [host7] eq_refl eq_refl).
Defined.

Example Print_inventory :
  let r := mkRender 100 FormatInt (λ _, "0s"%string) in
  Print r (mkEfesStatus [mkDeviceStatus dev3 "alpha" "alive" 0;
                         mkDeviceStatus dev2 "alpha" "alive" 0])
  = Some (mkTable table_header
            [""; ""; ""; "Total:"; "10"; "3"; "6"; "38"; ""; ""]
            [["alpha"; "alive"; "3"; "alive"; "10"; "3"; "6"; "33"; "12"; "0s"];
             ["alpha"; "alive"; "2"; "alive"; ""; "0"; ""; ""; ""; "0s"]])%string.
Proof. vm_compute. reflexivity. Qed.

(** Two devices, one of them without a total. *)
Lemma sum_totals_from_sums_witness :
  let s := mkEfesStatus [mkDeviceStatus dev3 "alpha" "alive" 0;
                         mkDeviceStatus dev2 "alpha" "alive" 0] in
  totalUsed (sum_totals s) = 383 ∧
  totalSize (sum_totals s) = 1000 ∧
  totalUse (sum_totals s) = 38 ∧
  (∀ r t, Print r s = Some t → footer t !! 7%nat = Some "38"%string).
Proof.
  apply (sum_totals_from_sums
           (mkEfesStatus [mkDeviceStatus dev3 "alpha" "alive" 0;
                          mkDeviceStatus dev2 "alpha" "alive" 0])).
  - repeat constructor; simpl; intros x [= <-]; lia.
  - vm_compute. discriminate.
  - vm_compute. discriminate.
Defined.

(** The second of the three chunk requests for [hello]. *)
Lemma chunk_requests_carry_offset_witness :
  let req := mkRequest MethodPatch dev_path []
               [("efes-file-offset", "2"); ("efes-file-length", "5")]%string
               (ChunkBody (list_byte_of_string "ll")) in
  Method req = MethodPatch ∧ URL req = dev_path ∧
  header_get (Header req) "efes-file-offset" = Some "2"%string ∧
  header_get (Header req) "efes-file-length" = Some "5"%string.
Proof.
  exact (chunk_requests_carry_offset calm cl2 dev_path 5 hello 3 []
           (take 1 (write calm cl2 dev_path 5 hello 3 []).2)
           (drop 2 (write calm cl2 dev_path 5 hello 3 []).2)
           (mkRequest MethodPatch dev_path []
              [("efes-file-offset", "2"); ("efes-file-length", "5")]%string
              (ChunkBody (list_byte_of_string "ll")))
           (inr (mkResponse 200 "hello")) eq_refl).
Defined.

Example chunk_header_stream :
  header_get (chunk_header 4 (-1)) "efes-file-offset" = Some "4"%string ∧
  header_get (chunk_header 4 (-1)) "efes-file-length" = None.
Proof. split; reflexivity. Qed.

(** * Further properties *)

(** ** The chunk loop, whatever the environment answers *)

Lemma chunk_failure_chunk req ans data rest :
  ReqBody req = ChunkBody data →
  chunk_failure (EvRequest req ans :: rest)
  = match answer_error ans with Some e => Some e | None => chunk_failure rest end.
Proof. intros Hb. simpl. by rewrite Hb. Qed.

(** What the loop keeps, turn after turn: the bodies sent make up a prefix
    of what was left of the source, none is longer than a chunk, a further
    request follows only an acknowledged one that left the session
    incomplete, and a return without error means the declared size was
    reached. *)
Lemma write_loop_inv env c path size fuel : ∀ rc tr0,
  ∃ new,
    (write_loop env c path size fuel rc tr0).2 = tr0 ++ new ∧
    concat (chunks new) `prefix_of` rc_rest rc ∧
    Forall (λ b, Z.of_nat (length b) <= Z.max 0 (ChunkSize c)) (chunks new) ∧
    (∀ pre ev post, new = pre ++ ev :: post → post ≠ [] →
       ∃ req ans, ev = EvRequest req ans ∧ answer_error ans = None ∧
                  ¬ (size > -1 ∧ Count rc + bytes_sent (pre ++ [ev]) >= size)) ∧
    (∀ n, (write_loop env c path size fuel rc tr0).1 = Some (n, None) →
       size > -1 ∧ size <= n ∧ new ≠ [] ∧ chunk_failure new = None ∧
       n = Count rc + bytes_sent new ∧
       n <= Z.max (Count rc) (size - 1) + Z.max 0 (ChunkSize c)).
Proof.
  induction fuel as [| fuel IH]; intros rc tr0.
  { exists []. simpl. rewrite app_nil_r.
    split_and!; [done | apply prefix_nil | constructor | | done].
    by intros [] ?? [=]. }
  destruct (new_request_error env MethodPatch path) as [e0 |] eqn:Hnew.
  { exists []. simpl. rewrite Hnew, app_nil_r. simpl.
    split_and!; [done | apply prefix_nil | constructor | | done].
    by intros [] ?? [=]. }
  set (n := Z.to_nat (ChunkSize c)).
  set (chunk := take n (rc_rest rc)).
  set (req := mkRequest MethodPatch path [] (chunk_header (Count rc) size)
                (ChunkBody chunk)).
  set (ans := round_trip env tr0 req).
  destruct (answer_error ans) as [e |] eqn:Hans.
  { destruct (write_loop_step_fail env c path size fuel rc tr0 e Hnew Hans)
      as (part & Hpart & ->).
    assert (Hle : (length part <= length chunk)%nat)
      by by apply prefix_length.
    assert (Hchunk : Z.of_nat (length chunk) <= Z.max 0 (ChunkSize c)).
    { unfold chunk. rewrite length_take. unfold n. lia. }
    eexists [EvRequest _ ans]. simpl fst. simpl snd.
    split_and!; [done | | | | done].
    - rewrite (chunks_cons _ _ part) by done. simpl. rewrite app_nil_r.
      etrans; [exact Hpart | apply prefix_take].
    - rewrite (chunks_cons _ _ part) by done.
      repeat constructor. lia.
    - intros [| ? [| ? ?]] ? [| ? ?] [=]; done. }
  rewrite write_loop_step_ok by done.
  fold n. fold chunk. fold req. fold ans.
  set (ev := EvRequest req ans).
  assert (Hcount : Count (drain_limited (ChunkSize c) rc).2
                   = Count rc + Z.of_nat (length chunk)) by done.
  assert (Hlen : Z.of_nat (length chunk) <= Z.max 0 (ChunkSize c)).
  { unfold chunk. rewrite length_take. unfold n. lia. }
  assert (Hlen' : (length chunk <= length (rc_rest rc))%nat).
  { unfold chunk. rewrite length_take. lia. }
  assert (Hsent : bytes_sent [ev] = Z.of_nat (length chunk)).
  { unfold ev. rewrite (bytes_sent_chunk _ _ chunk) by done.
    unfold bytes_sent. simpl. lia. }
  assert (Hpre : concat (chunks [ev]) `prefix_of` rc_rest rc).
  { unfold ev. rewrite (chunks_cons _ _ chunk) by done. simpl.
    rewrite app_nil_r. apply prefix_take. }
  assert (Hall : Forall (λ b, Z.of_nat (length b) <= Z.max 0 (ChunkSize c))
                        (chunks [ev])).
  { unfold ev. rewrite (chunks_cons _ _ chunk) by done. by repeat constructor. }
  assert (Hlast : ∀ pre ev' post, [ev] = pre ++ ev' :: post → post ≠ [] → False).
  { intros [| ? [| ? ?]] ? [| ? ?] [=]; done. }
  case_decide as Hdone.
  { exists [ev]. simpl fst. simpl snd. split_and!; try done.
    - intros ??? Heq Hne. by destruct (Hlast _ _ _ Heq Hne).
    - intros n' Hn'.
      assert (n' = Count rc + Z.of_nat (length chunk)) as ->
        by (by injection Hn' as <-).
      rewrite Hcount in Hdone. rewrite Hsent.
      split_and!; try done; try lia.
      unfold ev. rewrite (chunk_failure_chunk _ _ chunk) by done.
      by rewrite Hans. }
  destruct (IH (drain_limited (ChunkSize c) rc).2 (tr0 ++ [ev]))
    as (new & Htr & Hprefix & Hbound & Hnext & Hok).
  exists (ev :: new). split_and!.
  - rewrite Htr. by rewrite <- app_assoc.
  - unfold ev. rewrite (chunks_cons _ _ chunk) by done. simpl.
    destruct Hprefix as [k Hk]. simpl in Hk. fold n in Hk.
    exists k. rewrite <- app_assoc, <- Hk. symmetry. apply take_drop.
  - unfold ev. rewrite (chunks_cons _ _ chunk) by done. by constructor.
  - intros pre ev' post Heq Hne. destruct pre as [| ev0 pre].
    + injection Heq as <- <-. exists req, ans. split_and!; [done | done |].
      simpl. rewrite Hsent, <- Hcount. done.
    + injection Heq as <- ->.
      destruct (Hnext pre ev' post eq_refl Hne) as (req' & ans' & -> & Hack & Hnot).
      exists req', ans'. split_and!; [done | done |].
      change ((ev :: pre) ++ [EvRequest req' ans'])
        with ([ev] ++ (pre ++ [EvRequest req' ans'])).
      rewrite bytes_sent_app, Hsent. rewrite Hcount in Hnot. intros [? ?].
      apply Hnot. split; [done | lia].
  - intros n' Hres. destruct (Hok n' Hres) as (Hs & Hle & _ & Hf & Hn & Hup).
    rewrite Hcount in Hn, Hup.
    change (ev :: new) with ([ev] ++ new). rewrite bytes_sent_app, Hsent.
    split_and!; try done; try lia.
    unfold ev. simpl. rewrite Hans. done.
Qed.

(** X1: for every environment, fuel and declared size, what the chunk
    requests of [write] take from the source (a whole chunk when a
    response arrives, what the transport had read when it fails) is, in
    order, the first bytes of the source, as many as the count it
    returns; no request takes more than the chunk size. *)
Theorem write_sends_prefix (env : Env) (c : Client) (path : string) (size : Z)
    (r : list byte) (fuel : nat) (tr0 : list event) :
  ∃ new,
    (write env c path size r fuel tr0).2 = tr0 ++ new ∧
    concat (chunks new) = take (Z.to_nat (bytes_sent new)) r ∧
    Forall (λ b, Z.of_nat (length b) <= Z.max 0 (ChunkSize c)) (chunks new) ∧
    (∀ n e, (write env c path size r fuel tr0).1 = Some (n, e) →
            n = bytes_sent new).
Proof.
  unfold write.
  destruct (write_loop_inv env c path size fuel (newReadCounter r) tr0)
    as (new & Htr & [k Hk] & Hbound & _).
  destruct (write_loop_requests env c path size fuel (newReadCounter r) tr0)
    as (new' & Htr' & _ & Hn & _).
  rewrite Htr in Htr'. apply app_inv_head in Htr' as <-.
  exists new. split_and!; [done | | done |].
  - unfold bytes_sent. rewrite Nat2Z.id. simpl in Hk. rewrite Hk.
    by rewrite take_app_length.
  - intros n e Hres. rewrite (Hn n e Hres). unfold newReadCounter, Count.
    simpl. lia.
Qed.

(** A refused connection leaves the source untouched; a connection that
    breaks after one byte leaves the count at one. *)
Example write_connection_refused :
  write refusing cl2 dev_path 5 hello 3 []
  = (Some (0, Some (EnvError "connection refused")),
     [EvRequest (mkRequest MethodPatch dev_path [] (chunk_header 0 5)
                   (ChunkBody []))
                (inl (EnvError "connection refused"))]).
Proof. vm_compute. reflexivity. Qed.

Example write_connection_broken :
  write breaking cl2 dev_path 5 hello 3 []
  = (Some (1, Some (EnvError "broken pipe")),
     [EvRequest (mkRequest MethodPatch dev_path [] (chunk_header 0 5)
                   (ChunkBody (take 1 hello)))
                (inl (EnvError "broken pipe"))]).
Proof. vm_compute. reflexivity. Qed.

(** X2: [write] has one request under way at a time and stops at the first
    that fails: every chunk request that is followed by another one was
    answered with status 200, and the bytes sent up to it were fewer than
    a known declared size. *)
Theorem write_one_at_a_time (env : Env) (c : Client) (path : string) (size : Z)
    (r : list byte) (fuel : nat) (tr0 pre post : list event) (ev : event) :
  (write env c path size r fuel tr0).2 = tr0 ++ pre ++ ev :: post →
  post ≠ [] →
  ∃ req resp, ev = EvRequest req (inr resp) ∧ StatusCode resp = 200 ∧
              ¬ (0 <= size <= bytes_sent (pre ++ [ev])).
Proof.
  unfold write. intros Htr Hpost.
  destruct (write_loop_inv env c path size fuel (newReadCounter r) tr0)
    as (new & Htr' & _ & _ & Hnext & _).
  rewrite Htr in Htr'. apply app_inv_head in Htr' as <-.
  destruct (Hnext pre ev post eq_refl Hpost) as (req & ans & -> & Hack & Hnot).
  destruct ans as [e | resp]; [done |]. simpl in Hack.
  apply checkResponseError_OK in Hack.
  exists req, resp. split_and!; [done | done |].
  intros [? ?]. apply Hnot. unfold newReadCounter, Count. simpl. lia.
Qed.

(** The second of the three chunk requests for [hello] was acknowledged. *)
Lemma write_one_at_a_time_witness :
  ∃ req resp,
    nth 1 (write calm cl2 dev_path 5 hello 3 []).2 (EvOpen "" None)
    = EvRequest req (inr resp) ∧ StatusCode resp = 200 ∧
    ¬ (0 <= 5 <= bytes_sent (take 1 (write calm cl2 dev_path 5 hello 3 []).2
                               ++ [nth 1 (write calm cl2 dev_path 5 hello 3 []).2
                                         (EvOpen "" None)])).
Proof.
  apply (write_one_at_a_time calm cl2 dev_path 5 hello 3 []
           (take 1 (write calm cl2 dev_path 5 hello 3 []).2)
           (drop 2 (write calm cl2 dev_path 5 hello 3 []).2)).
  - reflexivity.
  - discriminate.
Defined.

(** X3: [write] returns without error only when the declared size is known
    and the count it returns has reached it; that count is no more than
    the source holds, and exceeds the last byte that was still missing by
    at most one chunk.  So a source shorter than its declared size never
    ends in success, and neither does an unknown size. *)
Theorem write_success_reaches_size (env : Env) (c : Client) (path : string)
    (size : Z) (r : list byte) (fuel : nat) (tr0 : list event) (n : Z) :
  (write env c path size r fuel tr0).1 = Some (n, None) →
  0 <= size ∧ size <= n ∧ n <= Z.of_nat (length r) ∧
  n <= Z.max 0 (size - 1) + Z.max 0 (ChunkSize c).
Proof.
  unfold write. intros Hres.
  destruct (write_loop_inv env c path size fuel (newReadCounter r) tr0)
    as (new & _ & [k Hk] & _ & _ & Hok).
  destruct (Hok n Hres) as (Hs & Hle & _ & _ & Hn & Hup).
  unfold newReadCounter, Count in Hn, Hup. simpl in Hn, Hup, Hk.
  split_and!; [lia | done | | done].
  rewrite Hn, Hk, length_app. unfold bytes_sent. lia.
Qed.

(** A file that reported three bytes and holds five: four are sent. *)
Lemma write_success_reaches_size_witness :
  0 <= 3 ∧ 3 <= 4 ∧ 4 <= Z.of_nat (length hello) ∧
  4 <= Z.max 0 (3 - 1) + Z.max 0 (ChunkSize cl2).
Proof.
  exact (write_success_reaches_size calm cl2 dev_path 3 hello 2 [] 4 eq_refl).
Defined.

(** ** Calls to the tracker *)

Lemma request_cases {T : Type} env c method urlPath params statusCode
    (response : option (string → error * T + T)) tr0 :
  let req := tracker_request c method urlPath params in
  let run := request env c method urlPath params statusCode response tr0 in
  (∃ e, run.1 = inl e ∧
        (run.2 = tr0 ∨ run.2 = tr0 ++ [EvRequest req (round_trip env tr0 req)])) ∨
  (∃ resp,
     new_request_error env method (trackerURL c urlPath) = None ∧
     round_trip env tr0 req = inr resp ∧
     checkResponseError resp statusCode = None ∧
     run.2 = tr0 ++ [EvRequest req (inr resp)] ∧
     match response with
     | None => run.1 = inr None
     | Some decode => ∃ x, decode (Body resp) = inr x ∧ run.1 = inr (Some x)
     end).
Proof.
  intros req run. subst run. unfold request. fold (tracker_request c method urlPath params).
  fold req.
  destruct (new_request_error env method _) as [e |]; [left; eauto |].
  unfold mbind, Eff_bind, Do. simpl.
  destruct (round_trip env tr0 req) as [e | resp] eqn:Hrt; [left; eauto |].
  destruct (checkResponseError resp statusCode) eqn:Hc; [left; eauto |].
  destruct response as [decode |].
  - destruct (decode (Body resp)) as [[e filled] | x] eqn:Hd; [left; eauto |].
    right. exists resp. split_and!; eauto.
  - right. exists resp. by split_and!.
Qed.

Lemma request_run_ok {T : Type} env c method urlPath params statusCode
    (response : option (string → error * T + T)) tr0 resp :
  let req := tracker_request c method urlPath params in
  new_request_error env method (trackerURL c urlPath) = None →
  round_trip env tr0 req = inr resp →
  checkResponseError resp statusCode = None →
  request env c method urlPath params statusCode response tr0
  = (match response with
     | None => inr None
     | Some decode =>
         match decode (Body resp) with
         | inl (e, filled) => inl (e, Some filled)
         | inr x => inr (Some x)
         end
     end, tr0 ++ [EvRequest req (inr resp)]).
Proof.
  intros req Hnew Hrt Hc. unfold request.
  fold (tracker_request c method urlPath params). fold req.
  rewrite Hnew. unfold mbind, Eff_bind, Do. simpl. rewrite Hrt, Hc.
  destruct response as [decode |]; [| done]. by destruct (decode _) as [[] |].
Qed.

(** X4: a call to the tracker succeeds exactly when the request could be
    built, the transport answered, the status is the expected one and
    below 400, and, where an answer is to be decoded, the body decodes;
    exactly one request was sent then, the one built from the method, the
    path and the parameters, and without a target the body is not looked
    at. *)
Theorem request_succeeds_iff {T : Type} (env : Env) (c : Client)
    (method urlPath : string) (params : Values) (statusCode : Z)
    (response : option (string → error * T + T)) (tr0 tr : list event)
    (v : option T) :
  let req := tracker_request c method urlPath params in
  request env c method urlPath params statusCode response tr0 = (inr v, tr)
  ↔ new_request_error env method (trackerURL c urlPath) = None ∧
    ∃ resp,
      round_trip env tr0 req = inr resp ∧
      StatusCode resp = statusCode ∧ StatusCode resp < 400 ∧
      tr = tr0 ++ [EvRequest req (inr resp)] ∧
      match response with
      | None => v = None
      | Some decode => ∃ x, decode (Body resp) = inr x ∧ v = Some x
      end.
Proof.
  intros req. split.
  - intros Hrun.
    destruct (request_cases env c method urlPath params statusCode response tr0)
      as [(e & He & _) | (resp & Hnew & Hrt & Hc & Htr & Hv)];
      rewrite Hrun in *; simpl in *; [done |].
    apply checkResponseError_classifies in Hc as [Hs Hlt].
    split; [done |]. exists resp. split_and!; try done.
    destruct response as [decode |].
    + destruct Hv as (x & Hx & [= ->]). eauto.
    + by injection Hv as ->.
  - intros (Hnew & resp & Hrt & Hs & Hlt & -> & Hv).
    rewrite (request_run_ok env c method urlPath params statusCode response
               tr0 resp Hnew Hrt)
      by (by apply checkResponseError_classifies).
    destruct response as [decode |].
    + destruct Hv as (x & -> & ->). done.
    + by subst v.
Qed.

Lemma is_request_app (a b : list event) :
  Forall (λ ev, is_request ev = true) a →
  Forall (λ ev, is_request ev = true) b →
  Forall (λ ev, is_request ev = true) (a ++ b).
Proof. rewrite Forall_app. by split. Qed.

Lemma chunk_requests_are_requests path size off new :
  chunk_requests_from path size off new →
  Forall (λ ev, is_request ev = true) new.
Proof.
  revert off. induction new as [| ev new IH]; intros off; [constructor |].
  destruct ev; try done. intros (data & _ & Hrest).
  constructor; [done | eauto].
Qed.

Lemma createOpen_shape env c size tr0 :
  let oreq := createOpen_request c size in
  let run := createOpen env c size tr0 in
  (∃ e new, run.1.2 = Some e ∧ run.2 = tr0 ++ new ∧ silent new ∧
            Forall (λ ev, is_request ev = true) new) ∨
  (∃ oresp,
     round_trip env tr0 oreq = inr oresp ∧ StatusCode oresp = 200 ∧
     decode_CreateOpen env (Body oresp) = inr run.1.1 ∧
     run.1.2 = None ∧ run.2 = tr0 ++ [EvRequest oreq (inr oresp)]).
Proof.
  intros oreq run. subst run. unfold createOpen, mbind, Eff_bind.
  set (form := if decide (size > -1) then _ else _).
  pose proof (request_cases env c MethodPost "create-open" form StatusOK
                (Some (decode_CreateOpen env)) tr0) as Hreq.
  change (tracker_request c MethodPost "create-open" form) with oreq in Hreq.
  simpl in Hreq. destruct (request _ _ _ _ _ _ _ _) as [r tr1]. simpl in Hreq.
  destruct Hreq as [([e filled] & -> & Htr)
                   | (resp & _ & Hrt & Hc & -> & x & Hx & ->)].
  - left. exists e.
    assert (Hnew : ∃ new, tr1 = tr0 ++ new ∧ silent new ∧
                          Forall (λ ev, is_request ev = true) new).
    { destruct Htr as [-> | ->].
      - exists []. rewrite app_nil_r.
        split; [done |]. split; [done | constructor].
      - eexists. split; [done |]. split; [| by repeat constructor].
        unfold oreq, createOpen_request. fold form. unfold form.
        by case_decide. }
    destruct Hnew as (new & -> & Hs & Hr).
    exists new. by destruct filled.
  - right. exists resp. simpl. apply checkResponseError_OK in Hc.
    by split_and!.
Qed.

(** The session from create-open on, event by event. *)
Lemma Write_session_shape env c key size f fuel tr0 :
  let oreq := createOpen_request c size in
  let run := Write_session env c key size f fuel tr0 in
  (∃ e new, run = (Some (Some e), tr0 ++ new) ∧ silent new ∧
            Forall (λ ev, is_request ev = true) new) ∨
  (∃ oresp co e2 e3,
     round_trip env tr0 oreq = inr oresp ∧ StatusCode oresp = 200 ∧
     decode_CreateOpen env (Body oresp) = inr co ∧
     run.2 = tr0 ++ EvRequest oreq (inr oresp) :: e2 ++ e3 ∧
     chunk_requests_from (co_Path co) size 0 e2 ∧
     (e3 = [] ∨
      ∃ ans, e3 = [EvRequest (createClose_request c key (bytes_sent e2)
                                (co_Fid co) (co_Devid co)) ans])).
Proof.
  intros oreq run. subst run. unfold Write_session, mbind, Eff_bind.
  pose proof (createOpen_shape env c size tr0) as Hopen. simpl in Hopen.
  fold oreq in Hopen.
  destruct (createOpen env c size tr0) as [[co err] tr1]. simpl in Hopen.
  destruct Hopen as [(e & new & -> & -> & Hs & Hr)
                    | (oresp & Hrt & Hst & Hdec & -> & ->)].
  { left. eauto. }
  right. exists oresp, co. unfold write.
  destruct (write_loop_requests env c (co_Path co) size fuel (newReadCounter f)
              (tr0 ++ [EvRequest oreq (inr oresp)]))
    as (e2 & Htr2 & Hreq & Hn & _).
  destruct (write_loop _ _ _ _ _ _ _) as [w tr2]. simpl in Htr2, Hn.
  subst tr2.
  assert (Hshape : ∀ e3, (tr0 ++ [EvRequest oreq (inr oresp)]) ++ e2 ++ e3
                         = tr0 ++ EvRequest oreq (inr oresp) :: e2 ++ e3)
    by (intros; by rewrite <- app_assoc).
  destruct w as [[n [e |]] |].
  - exists e2, []. simpl.
    split_and!; try done; [| by left].
    by rewrite <- (Hshape []), app_nil_r.
  - pose proof (request_events (T := unit) env c MethodPost "create-close"
                  [("key"%string, key); ("size"%string, FormatInt n);
                   ("fid"%string, FormatInt (co_Fid co));
                   ("devid"%string, FormatInt (co_Devid co))]
                  StatusOK None ((tr0 ++ [EvRequest oreq (inr oresp)]) ++ e2))
      as Hclose.
    unfold createClose, mbind, Eff_bind. simpl in Hclose.
    destruct (request _ _ _ _ _ _ _ _) as [r tr3]. simpl in Hclose.
    assert (Hn' : n = bytes_sent e2).
    { rewrite (Hn n None eq_refl). unfold newReadCounter, Count. simpl. lia. }
    assert (Htr3 : tr3 = (tr0 ++ [EvRequest oreq (inr oresp)]) ++ e2 ++ [] ∨
                   ∃ ans, tr3 = (tr0 ++ [EvRequest oreq (inr oresp)]) ++ e2 ++
                     [EvRequest (createClose_request c key (bytes_sent e2)
                                   (co_Fid co) (co_Devid co)) ans]).
    { destruct Hclose as [[-> _] | [-> _]].
      - left. by rewrite app_nil_r.
      - right. eexists. rewrite <- Hn'. by rewrite <- app_assoc. }
    destruct Htr3 as [-> | [ans ->]].
    + exists e2, []. split_and!; try done; [| by left].
      rewrite <- Hshape. by destruct r as [[] |].
    + exists e2, [EvRequest (createClose_request c key (bytes_sent e2)
                              (co_Fid co) (co_Devid co)) ans].
      split_and!; try done; [| right; eauto].
      rewrite <- Hshape. by destruct r as [[] |].
  - exists e2, []. simpl.
    split_and!; try done; [| by left].
    by rewrite <- (Hshape []), app_nil_r.
Qed.

(** ** Upload sessions, event by event *)

Lemma Write_shape env c key path fuel tr0 :
  let run := Write env c key path fuel tr0 in
  (path = "-"%string ∧
   run = Write_session env c key (-1) (stdin env) fuel tr0) ∨
  (path ≠ "-"%string ∧ ∃ e,
     fs_open env tr0 path = inl e ∧
     run = (Some (Some e), tr0 ++ [EvOpen path (Some e)])) ∨
  (path ≠ "-"%string ∧ ∃ f e r,
     fs_open env tr0 path = inr f ∧ Stat f = inl e ∧
     run = (Some (Some e), tr0 ++ [EvOpen path None; EvClose (Named path) r])) ∨
  (path ≠ "-"%string ∧ ∃ f size,
     fs_open env tr0 path = inr f ∧ Stat f = inr size ∧
     let srun := Write_session env c key size (Contents f) fuel
                   (tr0 ++ [EvOpen path None]) in
     (srun.1 = None ∧ run = srun) ∨
     (∃ res r, srun.1 = Some res ∧
               run = (Some res, srun.2 ++ [EvClose (Named path) r]))).
Proof.
  intros run. subst run. unfold Write. case_decide as Hp; [by left |].
  right. unfold mbind, Eff_bind, Open. simpl.
  destruct (fs_open env tr0 path) as [e | f]; [left; eauto |].
  right. destruct (Stat f) as [e | size] eqn:HStat.
  - left. split; [done |]. exists f, e. eexists. split_and!; [done | done |].
    unfold Close. simpl. by rewrite <- app_assoc.
  - right. split; [done |]. exists f, size. split_and!; [done | done |].
    simpl. destruct (Write_session _ _ _ _ _ _ _) as [[res |] tr1]; simpl.
    + right. exists res. eexists. split; [done |]. by unfold Close.
    + by left.
Qed.

Lemma chunk_requests_forall path size off new :
  chunk_requests_from path size off new →
  Forall (λ ev, ∃ ans data off',
            ev = EvRequest (mkRequest MethodPatch path [] (chunk_header off' size)
                              (ChunkBody data)) ans) new.
Proof.
  revert off. induction new as [| ev new IH]; intros off; [constructor |].
  destruct ev as [req ans | | | |]; try done. intros (data & -> & Hrest).
  constructor; [eauto | eauto].
Qed.

(** What [Write] did past a reservation: the events before the create-open
    request (the opening of the file, if any) and after it (chunk
    requests, then at most one create-close, then the closing of the
    file, if any). *)
Lemma Write_after_reservation env c key path fuel tr0 res new :
  Write env c key path fuel tr0 = (res, tr0 ++ new) →
  chunks new ≠ [] ∨ commits new ≠ [] →
  ∃ size pre oresp co e2 e3 closing,
    (path = "-"%string ∧ size = -1 ∧ pre = [] ∧ closing = [] ∨
     path ≠ "-"%string ∧ pre = [EvOpen path None] ∧
     (∃ f, fs_open env tr0 path = inr f ∧ Stat f = inr size) ∧
     (closing = [] ∨ ∃ r, closing = [EvClose (Named path) r])) ∧
    new = pre ++ EvRequest (createOpen_request c size) (inr oresp)
              :: e2 ++ e3 ++ closing ∧
    StatusCode oresp = 200 ∧
    decode_CreateOpen env (Body oresp) = inr co ∧
    chunk_requests_from (co_Path co) size 0 e2 ∧
    (e3 = [] ∨
     ∃ ans, e3 = [EvRequest (createClose_request c key (bytes_sent e2)
                               (co_Fid co) (co_Devid co)) ans]).
Proof.
  intros Hrun Hsome.
  assert (Hsession : ∀ size tr1 e srun,
    Write_session env c key size e fuel tr1 = srun →
    (∃ err quiet, srun = (Some (Some err), tr1 ++ quiet) ∧ silent quiet) ∨
    (∃ oresp co e2 e3,
       srun.2 = tr1 ++ EvRequest (createOpen_request c size) (inr oresp)
                  :: e2 ++ e3 ∧
       StatusCode oresp = 200 ∧ decode_CreateOpen env (Body oresp) = inr co ∧
       chunk_requests_from (co_Path co) size 0 e2 ∧
       (e3 = [] ∨
        ∃ ans, e3 = [EvRequest (createClose_request c key (bytes_sent e2)
                                  (co_Fid co) (co_Devid co)) ans]))).
  { intros size tr1 e srun <-.
    destruct (Write_session_shape env c key size e fuel tr1)
      as [(err & quiet & Hq & Hs & _)
         | (oresp & co & e2 & e3 & _ & Hst & Hdec & Htr & Hreq & He3)].
    - left. eauto.
    - right. exists oresp, co, e2, e3. by split_and!. }
  destruct (Write_shape env c key path fuel tr0)
    as [[Hp Hw] | [[Hp (e & _ & Hw)] | [[Hp (f & e & r & _ & _ & Hw)]
       | [Hp (f & size & Hopen & HStat & Hw)]]]];
    rewrite Hrun in Hw.
  - destruct (Hsession _ _ _ _ (eq_sym Hw))
      as [(err & quiet & [= _ Htr] & Hs) | (oresp & co & e2 & e3 & Htr & Hrest)].
    + apply app_inv_head in Htr as ->. destruct Hs as (Hc & _ & Hm).
      by destruct Hsome.
    + simpl in Htr. apply app_inv_head in Htr as ->.
      exists (-1), [], oresp, co, e2, e3, []. rewrite app_nil_r.
      split; [left; by split_and! |]. by split.
  - injection Hw as _ Htr. apply app_inv_head in Htr as ->. by destruct Hsome.
  - injection Hw as _ Htr. apply app_inv_head in Htr as ->. by destruct Hsome.
  - simpl in Hw.
    destruct (Hsession size (tr0 ++ [EvOpen path None]) (Contents f) _ eq_refl)
      as [(err & quiet & Hq & Hs) | (oresp & co & e2 & e3 & Htr & Hrest)].
    + exfalso. rewrite Hq in Hw. simpl in Hw.
      destruct Hw as [[[=] _] | (res' & r & _ & [= _ Htr])].
      rewrite <- !app_assoc in Htr. apply app_inv_head in Htr as ->.
      destruct Hs as (Hc & _ & Hm).
      destruct Hsome as [Hne | Hne]; apply Hne.
      * change (chunks ([EvOpen path None] ++ quiet ++ [EvClose (Named path) r]) = []).
        by rewrite !chunks_app, Hc.
      * change (commits ([EvOpen path None] ++ quiet ++ [EvClose (Named path) r]) = []).
        by rewrite !commits_app, Hm.
    + rewrite Htr in Hw.
      destruct Hw as [[_ Hw] | (res' & r & _ & Hw)].
      * rewrite (surjective_pairing (Write_session _ _ _ _ _ _ _)) in Hw.
        rewrite Htr in Hw. injection Hw as _ Hw.
        rewrite <- app_assoc in Hw. apply app_inv_head in Hw as ->.
        exists size, [EvOpen path None], oresp, co, e2, e3, [].
        rewrite app_nil_r. split; [| by split].
        right. split_and!; eauto.
      * injection Hw as _ Hw. rewrite <- !app_assoc in Hw.
        apply app_inv_head in Hw as ->.
        exists size, [EvOpen path None], oresp, co, e2, e3,
               [EvClose (Named path) r].
        split; [right; split_and!; eauto |].
        split; [| done]. simpl. by rewrite <- !app_assoc.
Qed.

(** X5: [Write] sends no chunk and no create-close before a reservation
    succeeded: when its trace shows either, the first request in it is the
    POST to create-open, answered with 200 and a body that decodes; every
    chunk request after it goes to the path of that answer, and the
    create-close carries the key and the file and device identifiers of
    that answer. *)
Theorem Write_reserves_first (env : Env) (c : Client) (key path : string)
    (fuel : nat) (tr0 new : list event) (res : option (option error)) :
  Write env c key path fuel tr0 = (res, tr0 ++ new) →
  chunks new ≠ [] ∨ commits new ≠ [] →
  ∃ pre oreq oresp co rest,
    new = pre ++ EvRequest oreq (inr oresp) :: rest ∧
    Forall (λ ev, is_request ev = false) pre ∧
    Method oreq = MethodPost ∧ URL oreq = trackerURL c "create-open" ∧
    StatusCode oresp = 200 ∧
    decode_CreateOpen env (Body oresp) = inr co ∧
    (∀ req ans data, EvRequest req ans ∈ rest →
       ReqBody req = ChunkBody data → URL req = co_Path co) ∧
    (∀ k s f d, (k, s, f, d) ∈ commits rest →
       k = key ∧ f = FormatInt (co_Fid co) ∧ d = FormatInt (co_Devid co)).
Proof.
  intros Hrun Hsome.
  destruct (Write_after_reservation env c key path fuel tr0 res new Hrun Hsome)
    as (size & pre & oresp & co & e2 & e3 & closing
        & Hends & -> & Hst & Hdec & Hreq & He3).
  exists pre, (createOpen_request c size), oresp, co, (e2 ++ e3 ++ closing).
  assert (Hclosing : closing = [] ∨ ∃ r, closing = [EvClose (Named path) r]).
  { destruct Hends as [(_ & _ & _ & ->) | (_ & _ & _ & ?)]; [by left | done]. }
  split_and!; try done.
  - destruct Hends as [(_ & _ & -> & _) | (_ & -> & _)]; by repeat constructor.
  - intros req ans data Hin Hbody.
    apply elem_of_app in Hin as [Hin | Hin].
    + apply chunk_requests_forall in Hreq.
      rewrite Forall_forall in Hreq.
      by destruct (Hreq _ Hin) as (? & ? & ? & [= -> _]).
    + apply elem_of_app in Hin as [Hin | Hin].
      * destruct He3 as [-> | [? ->]]; [by apply elem_of_nil in Hin |].
        apply list_elem_of_singleton in Hin as [= -> _]. done.
      * destruct Hclosing as [-> | [? ->]]; [by apply elem_of_nil in Hin |].
        by apply list_elem_of_singleton in Hin.
  - intros k s f d. rewrite !commits_app.
    rewrite (chunk_requests_commits _ _ _ _ Hreq). simpl.
    assert (commits closing = []) as ->
      by (by destruct Hclosing as [-> | [? ->]]).
    rewrite app_nil_r.
    destruct He3 as [-> | [? ->]]; [by intros ?%elem_of_nil |].
    by intros [= -> _ -> ->]%list_elem_of_singleton.
Qed.

(** Writing the file ["f"] in the calm world. *)
Lemma Write_reserves_first_witness :
  ∃ pre oreq oresp co rest,
    (Write calm cl2 "k" "f" 3 []).2 = pre ++ EvRequest oreq (inr oresp) :: rest ∧
    Forall (λ ev, is_request ev = false) pre ∧
    Method oreq = MethodPost ∧ URL oreq = trackerURL cl2 "create-open" ∧
    StatusCode oresp = 200 ∧
    decode_CreateOpen calm (Body oresp) = inr co ∧
    (∀ req ans data, EvRequest req ans ∈ rest →
       ReqBody req = ChunkBody data → URL req = co_Path co) ∧
    (∀ k s f d, (k, s, f, d) ∈ commits rest →
       k = "k"%string ∧ f = FormatInt (co_Fid co) ∧ d = FormatInt (co_Devid co)).
Proof.
  apply (Write_reserves_first calm cl2 "k" "f" 3 []
           (Write calm cl2 "k" "f" 3 []).2 (Some None)).
  - reflexivity.
  - left. vm_compute. discriminate.
Defined.

(** X6: the size [Write] declares is -1 for standard input and what [Stat]
    reports for a file; create-open is sent with that size as its only
    parameter when it is not negative and without parameters otherwise,
    and every chunk request of the session carries the same size as
    efes-file-length, or no such header when it is negative. *)
Theorem Write_declares_size (env : Env) (c : Client) (key path : string)
    (fuel : nat) (tr0 new : list event) (res : option (option error)) :
  Write env c key path fuel tr0 = (res, tr0 ++ new) →
  chunks new ≠ [] →
  ∃ size,
    (path = "-"%string ∧ size = -1 ∨
     path ≠ "-"%string ∧
     ∃ f, fs_open env tr0 path = inr f ∧ Stat f = inr size) ∧
    (∃ oreq ans,
       EvRequest oreq ans ∈ new ∧
       URL oreq = trackerURL c "create-open" ∧
       ReqBody oreq
       = FormBody (if decide (0 <= size)
                   then [("size", FormatInt size)]%string else [])) ∧
    (∀ req ans data, EvRequest req ans ∈ new →
       ReqBody req = ChunkBody data →
       header_get (Header req) "efes-file-length"
       = if decide (0 <= size) then Some (FormatInt size) else None).
Proof.
  intros Hrun Hsome.
  destruct (Write_after_reservation env c key path fuel tr0 res new Hrun
              (or_introl Hsome))
    as (size & pre & oresp & co & e2 & e3 & closing
        & Hends & -> & Hst & Hdec & Hreq & He3).
  exists size. split_and!.
  - destruct Hends as [(? & ? & _) | (? & _ & ? & _)]; [by left | by right].
  - exists (createOpen_request c size), (inr oresp). split_and!; [| done |].
    + apply elem_of_app. right. apply elem_of_cons. by left.
    + simpl. destruct (decide (size > -1)), (decide (0 <= size)); try lia; done.
  - intros req ans data Hin Hbody.
    assert (Hpre : ∀ ev, ev ∈ pre → is_request ev = false).
    { intros ev Hev.
      destruct Hends as [(_ & _ & -> & _) | (_ & -> & _)];
        [by apply elem_of_nil in Hev |].
      by apply list_elem_of_singleton in Hev as ->. }
    apply elem_of_app in Hin as [Hin | Hin]; [by apply Hpre in Hin |].
    apply elem_of_cons in Hin as [[= -> _] | Hin];
      [unfold createOpen_request in Hbody; done |].
    apply elem_of_app in Hin as [Hin | Hin].
    + apply chunk_requests_forall in Hreq. rewrite Forall_forall in Hreq.
      destruct (Hreq _ Hin) as (? & ? & off' & [= -> _]). simpl.
      apply chunk_header_get.
    + apply elem_of_app in Hin as [Hin | Hin].
      * destruct He3 as [-> | [? ->]]; [by apply elem_of_nil in Hin |].
        apply list_elem_of_singleton in Hin as [= -> _]. done.
      * destruct Hends as [(_ & _ & _ & ->) | (_ & _ & _ & [-> | [? ->]])];
          try (by apply elem_of_nil in Hin).
        by apply list_elem_of_singleton in Hin.
Qed.

(** The file ["f"] reports five bytes. *)
Lemma Write_declares_size_witness :
  ∃ size,
    ("f"%string = "-"%string ∧ size = -1 ∨
     "f"%string ≠ "-"%string ∧
     ∃ f, fs_open calm [] "f" = inr f ∧ Stat f = inr size) ∧
    (∃ oreq ans,
       EvRequest oreq ans ∈ (Write calm cl2 "k" "f" 3 []).2 ∧
       URL oreq = trackerURL cl2 "create-open" ∧
       ReqBody oreq
       = FormBody (if decide (0 <= size)
                   then [("size", FormatInt size)]%string else [])) ∧
    (∀ req ans data, EvRequest req ans ∈ (Write calm cl2 "k" "f" 3 []).2 →
       ReqBody req = ChunkBody data →
       header_get (Header req) "efes-file-length"
       = if decide (0 <= size) then Some (FormatInt size) else None).
Proof.
  apply (Write_declares_size calm cl2 "k" "f" 3 []
           (Write calm cl2 "k" "f" 3 []).2 (Some None)).
  - reflexivity.
  - vm_compute. discriminate.
Defined.

Lemma Write_session_requests env c key size f fuel tr0 :
  ∃ new, (Write_session env c key size f fuel tr0).2 = tr0 ++ new ∧
         Forall (λ ev, is_request ev = true) new.
Proof.
  destruct (Write_session_shape env c key size f fuel tr0)
    as [(e & new & -> & _ & Hr)
       | (oresp & co & e2 & e3 & _ & _ & _ & -> & Hreq & He3)].
  - by exists new.
  - eexists. split; [done |]. constructor; [done |].
    apply is_request_app; [by eapply chunk_requests_are_requests |].
    destruct He3 as [-> | [? ->]]; by repeat constructor.
Qed.

(** X7: [Write] closes the file it opened on every way out, and touches no
    file when it reads standard input: a returned [Write] on "-" shows
    only requests; on a path it shows either a failed open and nothing
    else, with that error returned, or a successful open first, a close of
    the same file last, and only requests between them. *)
Theorem Write_closes_what_it_opens (env : Env) (c : Client) (key path : string)
    (fuel : nat) (tr0 new : list event) (res : option error) :
  Write env c key path fuel tr0 = (Some res, tr0 ++ new) →
  (path = "-"%string → Forall (λ ev, is_request ev = true) new) ∧
  (path ≠ "-"%string →
     (∃ e, new = [EvOpen path (Some e)] ∧ res = Some e) ∨
     (∃ mid r, new = EvOpen path None :: mid ++ [EvClose (Named path) r] ∧
               Forall (λ ev, is_request ev = true) mid)).
Proof.
  intros Hrun.
  destruct (Write_shape env c key path fuel tr0)
    as [[Hp Hw] | [[Hp (e & _ & Hw)] | [[Hp (f & e & r & _ & _ & Hw)]
       | [Hp (f & size & Hopen & HStat & Hw)]]]];
    rewrite Hrun in Hw.
  - split; [intros _ | done].
    destruct (Write_session_requests env c key (-1) (stdin env) fuel tr0)
      as (new' & Htr & Hr).
    rewrite <- Hw in Htr. simpl in Htr. by apply app_inv_head in Htr as ->.
  - split; [done | intros _].
    injection Hw as -> Htr. apply app_inv_head in Htr as ->. left. eauto.
  - split; [done | intros _].
    injection Hw as _ Htr. apply app_inv_head in Htr as ->.
    right. exists [], r. by split.
  - split; [done | intros _]. simpl in Hw.
    destruct (Write_session_requests env c key size (Contents f) fuel
                (tr0 ++ [EvOpen path None])) as (mid & Htr & Hr).
    destruct Hw as [[Hnone Hw] | (res' & r & _ & Hw)].
    + rewrite <- Hw in Hnone. done.
    + rewrite Htr in Hw. injection Hw as _ Hw.
      rewrite <- !app_assoc in Hw. apply app_inv_head in Hw as ->.
      right. exists mid, r. by split.
Qed.

(** Writing the file ["f"] in the calm world: opened first, closed last. *)
Lemma Write_closes_what_it_opens_witness :
  ("f"%string = "-"%string →
   Forall (λ ev, is_request ev = true) (Write calm cl2 "k" "f" 3 []).2) ∧
  ("f"%string ≠ "-"%string →
     (∃ e, (Write calm cl2 "k" "f" 3 []).2 = [EvOpen "f" (Some e)] ∧
           None = Some e) ∨
     (∃ mid r, (Write calm cl2 "k" "f" 3 []).2
               = EvOpen "f" None :: mid ++ [EvClose (Named "f") r] ∧
               Forall (λ ev, is_request ev = true) mid)).
Proof.
  exact (Write_closes_what_it_opens calm cl2 "k" "f" 3 []
           (Write calm cl2 "k" "f" 3 []).2 None eq_refl).
Defined.

(** ** Reading, event by event *)

Lemma getPaths_requests env c key tr0 :
  ∃ new, (getPaths env c key tr0).2 = tr0 ++ new ∧
         Forall (λ ev, is_request ev = true) new.
Proof.
  unfold getPaths, mbind, Eff_bind.
  pose proof (request_events env c MethodGet "get-paths" [("key"%string, key)]
                StatusOK (Some (decode_GetPaths env)) tr0) as Hreq.
  simpl in Hreq. destruct (request _ _ _ _ _ _ _ _) as [r tr1].
  simpl in Hreq.
  assert (Htr1 : ∃ new, tr1 = tr0 ++ new ∧
                        Forall (λ ev, is_request ev = true) new).
  { destruct Hreq as [[-> _] | [-> _]].
    - exists []. rewrite app_nil_r. by split; [| constructor].
    - eexists; split; [done |]. by repeat constructor. }
  by destruct r as [[? []] | []].
Qed.

Lemma Get_requests env url tr1 :
  ∃ new, (Get env url tr1).2 = tr1 ++ new ∧
         Forall (λ ev, is_request ev = true) new.
Proof.
  unfold Get. destruct (new_request_error env MethodGet url).
  - exists []. rewrite app_nil_r. by split; [| constructor].
  - eexists; split; [done |]. by repeat constructor.
Qed.

Lemma copy_and_close_run env f resp tr :
  let cerr := copy_error env tr f in
  let r := close_error env (tr ++ [EvCopy f (Body resp) cerr]) f in
  copy_and_close env f resp tr
  = (match cerr with Some e => Some e | None => r end,
     tr ++ [EvCopy f (Body resp) cerr; EvClose f r]).
Proof.
  unfold copy_and_close, mbind, Eff_bind, Copy, Close. simpl.
  destruct (copy_error env tr f); simpl; by rewrite <- app_assoc.
Qed.

(** [Read] past the checks. *)
Lemma Read_past_checks env c key path tr0 u rest tr1 resp tr2 :
  getPaths env c key tr0 = ((u :: rest, None), tr1) →
  Get env u tr1 = (inr resp, tr2) →
  StatusCode resp = 200 →
  Read env c key path tr0
  = if decide (path = "-"%string) then copy_and_close env Stdout resp tr2
    else match fs_create env tr2 path with
         | Some e => (Some e, tr2 ++ [EvCreate path (Some e)])
         | None => copy_and_close env (Named path) resp
                     (tr2 ++ [EvCreate path None])
         end.
Proof.
  intros HgP HGet Hst. unfold Read, mbind, Eff_bind. rewrite HgP, HGet.
  apply checkResponseError_OK in Hst. rewrite Hst.
  case_decide; [done |]. unfold Create. simpl.
  by destruct (fs_create env tr2 path).
Qed.

(** Either [Read] stopped before the checks were passed, having sent only
    requests, or it went past them. *)
Lemma Read_cases env c key path tr0 :
  (∃ e new, Read env c key path tr0 = (Some e, tr0 ++ new) ∧
            Forall (λ ev, is_request ev = true) new) ∨
  (∃ u rest tr1 resp new,
     getPaths env c key tr0 = ((u :: rest, None), tr1) ∧
     Get env u tr1 = (inr resp, tr0 ++ new) ∧ StatusCode resp = 200 ∧
     Forall (λ ev, is_request ev = true) new).
Proof.
  destruct (getPaths_requests env c key tr0) as (e1 & He1 & Hr1).
  unfold Read, mbind, Eff_bind.
  destruct (getPaths env c key tr0) as [[paths err] tr1]. simpl in He1.
  subst tr1. destruct err as [e |]; [left; eauto |].
  destruct paths as [| u rest]; [left; eauto |].
  destruct (Get_requests env u (tr0 ++ e1)) as (e2 & He2 & Hr2).
  destruct (Get env u (tr0 ++ e1)) as [[e | resp] tr2] eqn:HGet;
    simpl in He2; subst tr2; rewrite <- app_assoc in *.
  { left. exists e, (e1 ++ e2). split; [done | by apply is_request_app]. }
  destruct (checkResponseError resp StatusOK) as [e |] eqn:Hc.
  { left. exists e, (e1 ++ e2). split; [done | by apply is_request_app]. }
  right. apply checkResponseError_OK in Hc.
  exists u, rest, (tr0 ++ e1), resp, (e1 ++ e2).
  split_and!; try done. by apply is_request_app.
Qed.

(** X8: when [Read] succeeds, what it wrote is what it fetched: the
    tracker named at least one path, the first one was fetched with status
    200, and after that the destination (standard output for "-", else the
    file, created first) received the body of that answer in one copy and
    was closed, both without error. *)
Theorem Read_copies_fetched_body (env : Env) (c : Client) (key path : string)
    (tr0 new : list event) :
  Read env c key path tr0 = (None, tr0 ++ new) →
  ∃ u rest tr1 resp tr2,
    getPaths env c key tr0 = ((u :: rest, None), tr1) ∧
    Get env u tr1 = (inr resp, tr2) ∧ StatusCode resp = 200 ∧
    tr0 ++ new
    = tr2 ++ (if decide (path = "-"%string) then [] else [EvCreate path None])
          ++ [EvCopy (destination path) (Body resp) None;
              EvClose (destination path) None].
Proof.
  intros Hrun.
  destruct (Read_cases env c key path tr0)
    as [(e & new' & Hr & _) | (u & rest & tr1 & resp & new' & HgP & HGet & Hst & _)];
    [by rewrite Hrun in Hr |].
  exists u, rest, tr1, resp, (tr0 ++ new'). split_and!; try done.
  rewrite (Read_past_checks _ _ _ _ _ _ _ _ _ _ HgP HGet Hst) in Hrun.
  unfold destination. case_decide.
  - rewrite copy_and_close_run in Hrun. injection Hrun as Hres <-.
    destruct (copy_error _ _ _); [done |]. simpl in Hres. by rewrite Hres.
  - destruct (fs_create _ _ _); [done |].
    rewrite copy_and_close_run in Hrun. injection Hrun as Hres <-.
    destruct (copy_error _ _ _); [done |]. simpl in Hres. rewrite Hres.
    by rewrite <- app_assoc.
Qed.

(** Reading into the file ["out"] in the calm world. *)
Lemma Read_copies_fetched_body_witness :
  ∃ u rest tr1 resp tr2,
    getPaths calm cl2 "k" [] = ((u :: rest, None), tr1) ∧
    Get calm u tr1 = (inr resp, tr2) ∧ StatusCode resp = 200 ∧
    [] ++ (Read calm cl2 "k" "out" []).2
    = tr2 ++ (if decide ("out"%string = "-"%string) then []
              else [EvCreate "out" None])
          ++ [EvCopy (destination "out") (Body resp) None;
              EvClose (destination "out") None].
Proof.
  exact (Read_copies_fetched_body calm cl2 "k" "out" []
           (Read calm cl2 "k" "out" []).2 eq_refl).
Defined.

Lemma split_at_first (P : event → bool) (a b pre post : list event) x x' :
  Forall (λ ev, P ev = false) a → Forall (λ ev, P ev = false) b →
  P x = true → P x' = true →
  a ++ x :: b = pre ++ x' :: post →
  pre = a ∧ x' = x ∧ post = b.
Proof.
  intros Ha Hb Hx Hx'. revert pre.
  induction Ha as [| ev a Hev Ha IH]; intros pre Heq.
  - destruct pre as [| ev' pre]; simplify_eq/=; [done |].
    rewrite Forall_app, Forall_cons in Hb. destruct Hb as (_ & Hb & _).
    congruence.
  - destruct pre as [| ev' pre]; [simplify_eq/=; congruence |].
    injection Heq as <- Heq. by destruct (IH _ Heq) as (-> & -> & ->).
Qed.

Lemma requests_not_copies (new : list event) :
  Forall (λ ev, is_request ev = true) new →
  Forall (λ ev, is_copy ev = false) new.
Proof. intros H. eapply Forall_impl; [exact H |]. by intros []. Qed.

(** X9: [Read] closes the destination after the copy whether or not the
    copy failed, standard output included, and does nothing after that; it
    returns the error of the copy if there is one, and the outcome of the
    close otherwise. *)
Theorem Read_closes_after_copy (env : Env) (c : Client) (key path : string)
    (tr0 new pre post : list event) (res : option error)
    (h : handle) (data : string) (cerr : option error) :
  Read env c key path tr0 = (res, tr0 ++ new) →
  new = pre ++ EvCopy h data cerr :: post →
  h = destination path ∧
  ∃ r, post = [EvClose h r] ∧
       res = match cerr with Some e => Some e | None => r end.
Proof.
  intros Hrun ->.
  destruct (Read_cases env c key path tr0)
    as [(e & new' & Hr & Hreq)
       | (u & rest & tr1 & resp & new' & HgP & HGet & Hst & Hreq)].
  { rewrite Hrun in Hr. injection Hr as _ Hr. apply app_inv_head in Hr.
    subst new'. apply requests_not_copies in Hreq.
    rewrite Forall_app, Forall_cons in Hreq. by destruct Hreq as (_ & ? & _). }
  apply requests_not_copies in Hreq.
  rewrite (Read_past_checks _ _ _ _ _ _ _ _ _ _ HgP HGet Hst) in Hrun.
  unfold destination. case_decide.
  - rewrite copy_and_close_run in Hrun. injection Hrun as <- Htr.
    rewrite <- !app_assoc in Htr. apply app_inv_head in Htr.
    apply (split_at_first is_copy) in Htr as (Hpre & Hev & Hpost);
      [| done | by repeat constructor | done | done].
    injection Hev as -> -> ->. split; [done |].
      subst post. eexists. split; [done |]. by rewrite <- !app_assoc.
  - destruct (fs_create env (tr0 ++ new') path) as [e |].
    + injection Hrun as _ Htr. rewrite <- !app_assoc in Htr.
      apply app_inv_head in Htr. exfalso.
      assert (Hno : Forall (λ ev, is_copy ev = false)
                           (new' ++ [EvCreate path (Some e)]))
        by (rewrite Forall_app; split; [done | by repeat constructor]).
      rewrite Htr, Forall_app, Forall_cons in Hno.
      by destruct Hno as (_ & ? & _).
    + rewrite copy_and_close_run in Hrun. injection Hrun as <- Htr.
      rewrite <- !app_assoc in Htr. apply app_inv_head in Htr.
      rewrite (app_assoc new' [EvCreate path None]) in Htr.
      apply (split_at_first is_copy) in Htr as (Hpre & Hev & Hpost);
        [| | by repeat constructor | done | done].
      * injection Hev as -> -> ->. split; [done |].
      subst post. eexists. split; [done |]. by rewrite <- !app_assoc.
      * rewrite Forall_app. split; [done | by repeat constructor].
Qed.

(** Reading into the file ["out"] in the calm world. *)
Lemma Read_closes_after_copy_witness :
  Named "out" = destination "out" ∧
  ∃ r, drop 4 (Read calm cl2 "k" "out" []).2 = [EvClose (Named "out") r] ∧
       None = r.
Proof.
  exact (Read_closes_after_copy calm cl2 "k" "out" []
           (Read calm cl2 "k" "out" []).2
           (take 3 (Read calm cl2 "k" "out" []).2)
           (drop 4 (Read calm cl2 "k" "out" []).2)
           None (Named "out") "hello" None eq_refl eq_refl).
Defined.

(** X10: [Exist] and [Read] resolve a key alike: [Exist] sends what
    [getPaths] sends and nothing else; when it fails, [Read] from the same
    state fails with the same error; when it answers false without error,
    [Read] fails with "no path returned from tracker", having sent the
    same request only; it answers true only without error and with a path
    to fetch. *)
Theorem Exist_agrees_with_Read (env : Env) (c : Client) (key path : string)
    (tr0 tr1 : list event) (b : bool) (err : option error) :
  Exist env c key tr0 = ((b, err), tr1) →
  tr1 = (getPaths env c key tr0).2 ∧
  (∀ e, err = Some e → b = false ∧ Read env c key path tr0 = (Some e, tr1)) ∧
  (err = None → b = false →
     Read env c key path tr0 = (Some NoPathReturned, tr1)) ∧
  (b = true →
     err = None ∧ ∃ u rest, getPaths env c key tr0 = ((u :: rest, None), tr1)).
Proof.
  unfold Exist, Read, mbind, Eff_bind.
  destruct (getPaths env c key tr0) as [[paths gerr] tr].
  destruct gerr as [e |]; simpl.
  - intros [= <- <- <-]. split_and!; try done. by intros ? [= <-].
  - destruct paths as [| u rest]; intros [= <- <- <-];
      split_and!; try done. eauto.
Qed.

(** A key the tracker has no path for: [Exist] says false, [Read] fails. *)
Lemma Exist_agrees_with_Read_witness :
  Read barren cl2 "k" "out" []
  = (Some NoPathReturned, (Exist barren cl2 "k" []).2).
Proof.
  exact (proj1 (proj2 (proj2
           (Exist_agrees_with_Read barren cl2 "k" "out" []
              (Exist barren cl2 "k" []).2 false None eq_refl)))
           eq_refl eq_refl).
Defined.

(** X11: [Delete] returns nil exactly when the POST to delete, with the
    key as its only parameter, could be built and was answered with status
    200; it sent that one request then, and the body of the answer plays
    no part. *)
Theorem Delete_succeeds_iff (env : Env) (c : Client) (key : string)
    (tr0 tr : list event) :
  let req := tracker_request c MethodPost "delete" [("key"%string, key)] in
  Delete env c key tr0 = (None, tr)
  ↔ new_request_error env MethodPost (trackerURL c "delete") = None ∧
    ∃ resp, round_trip env tr0 req = inr resp ∧ StatusCode resp = 200 ∧
            tr = tr0 ++ [EvRequest req (inr resp)].
Proof.
  intros req. unfold Delete, mbind, Eff_bind.
  pose proof (request_cases (T := unit) env c MethodPost "delete"
                [("key"%string, key)] StatusOK None tr0) as Hreq.
  fold req in Hreq. simpl in Hreq. split.
  - destruct (request _ _ _ _ _ _ _ _) as [r tr1]. simpl in Hreq.
    destruct Hreq as [([e ?] & -> & _) | (resp & Hnew & Hrt & Hc & -> & ->)];
      [done |].
    apply checkResponseError_OK in Hc. intros [= <-]. eauto.
  - intros (Hnew & resp & Hrt & Hst & ->).
    rewrite (request_run_ok (T := unit) env c MethodPost "delete"
               [("key"%string, key)] StatusOK None tr0 resp Hnew Hrt)
      by (by apply checkResponseError_OK).
    done.
Qed.

(** ** The status view, row by row *)

Lemma index_hosts_lookup (hosts : list Host.t) (id : Z) :
  index_hosts hosts !! id = last (filter (λ h, Host.Hostid h = id) hosts).
Proof.
  unfold index_hosts.
  enough (Hacc : ∀ m : gmap Z Host.t,
            foldl (λ m h, <[Host.Hostid h := h]> m) m hosts !! id
            = match last (filter (λ h, Host.Hostid h = id) hosts) with
              | Some h => Some h
              | None => m !! id
              end).
  { rewrite Hacc, lookup_empty. by destruct (last _). }
  induction hosts as [| h hosts IH]; intros m; [done |].
  simpl. rewrite IH, filter_cons. case_decide as Hid.
  - rewrite last_cons. destruct (last _); [done |].
    by rewrite Hid, lookup_insert_eq.
  - destruct (last _); [done |]. by rewrite lookup_insert_ne.
Qed.

(** X12: every row of the view carries the name and status of the host
    whose identifier the device names, taken from the last such host of
    the answer of get-hosts when several share the identifier, and two
    empty strings when none has it; its update time is the device's.  The
    sort key plays no part in this. *)
Theorem Status_joins_hosts `{Sorting} (t : Tracker) (sortBy : string)
    (devs : list Device.t) (hosts : list Host.t) (st : efesStatus) :
  get_devices t = inr devs → get_hosts t = inr hosts →
  (Status t sortBy).1.1 = Some st →
  Forall (λ ds,
            UpdatedAt ds = Device.UpdatedAt (Device ds) ∧
            (Hostname ds, HostStatus ds)
            = match host_of hosts (Device ds) with
              | Some h => (Host.Hostname h, Host.Status h)
              | None => (""%string, ""%string)
              end)
         (devices st).
Proof.
  intros Hd Hh. rewrite (Status_view t sortBy devs hosts Hd Hh).
  set (natural := join_host (index_hosts hosts) <$> living devs).
  assert (Hnat : Forall (λ ds,
            UpdatedAt ds = Device.UpdatedAt (Device ds) ∧
            (Hostname ds, HostStatus ds)
            = match host_of hosts (Device ds) with
              | Some h => (Host.Hostname h, Host.Status h)
              | None => (""%string, ""%string)
              end) natural).
  { unfold natural. rewrite Forall_fmap. apply Forall_forall. intros d _.
    simpl. rewrite join_host_Device. unfold join_host, host_of.
    rewrite index_hosts_lookup. by destruct (last _). }
  destruct (sort_key sortBy) as [k |]; simpl; intros [= <-]; simpl; [| done].
  by rewrite Sort_perm.
Qed.

(** Two hosts with the identifier 7, none with 9. *)
Lemma Status_joins_hosts_witness :
  Forall (λ ds,
            UpdatedAt ds = Device.UpdatedAt (Device ds) ∧
            (Hostname ds, HostStatus ds)
            = match host_of [host7; Host.mk 7 "beta" "dead"] (Device ds) with
              | Some h => (Host.Hostname h, Host.Status h)
              | None => (""%string, ""%string)
              end)
         [mkDeviceStatus dev3 "beta" "dead" 0; mkDeviceStatus dev9 "" "" 0].
Proof.
  exact (@Status_joins_hosts sample_sorting crowded "" [dev3; dev9]
           [host7; Host.mk 7 "beta" "dead"]
           (mkEfesStatus [mkDeviceStatus dev3 "beta" "dead" 0;
                          mkDeviceStatus dev9 "" "" 0])
           eq_refl eq_refl eq_refl).
Defined.

(** ** Rendering *)

Lemma FormatInt_not_empty (x : Z) : FormatInt x ≠ ""%string.
Proof.
  unfold FormatInt. destruct x as [| p | p]; simpl; [done | |].
  - destruct (Pos.to_uint p); done.
  - done.
Qed.

(** X13: an unknown value and a number never look alike: [Use] renders the
    empty string exactly when used or total is absent, and [IO] exactly
    when the utilization is absent. *)
Theorem unknown_renders_empty (d : deviceStatus) :
  (Use d = Some ""%string
   ↔ Device.BytesUsed (Device d) = None ∨ Device.BytesTotal (Device d) = None) ∧
  (IO d = ""%string ↔ Device.IoUtilization (Device d) = None).
Proof.
  unfold Use, IO. split.
  - destruct (Device.BytesUsed _) as [u |], (Device.BytesTotal _) as [t |];
      try (split; [eauto | done]).
    split; [| by intros [|]].
    destruct (quo (mul u 100) t) as [q |]; simpl; [| done].
    intros [= Hq]. by apply FormatInt_not_empty in Hq.
  - destruct (Device.IoUtilization _) as [io |]; [| done].
    split; [| done]. intros Hq. by apply FormatInt_not_empty in Hq.
Qed.

Lemma Use_panics_iff (d : deviceStatus) : Use d = None ↔ zero_total d.
Proof.
  unfold Use, zero_total, quo.
  destruct (Device.BytesUsed _) as [u |], (Device.BytesTotal _) as [t |];
    try (split; [done | by intros [[? [=]] ?] || by intros [? [=]]]).
  case_decide as Ht; simpl.
  - subst t. split; [eauto | done].
  - split; [done |]. by intros [_ [= ->]].
Qed.

Lemma row_panics_iff (r : Render) (d : deviceStatus) :
  G r ≠ 0 → (row r d = None ↔ zero_total d).
Proof.
  intros HG. rewrite <- Use_panics_iff.
  assert (Hq : ∀ x, quo x (G r) = Some (quot x (G r)))
    by (intros; unfold quo; by rewrite decide_False).
  unfold row, Size, Used, Free.
  destruct (Device.BytesTotal _), (Device.BytesUsed _), (Device.BytesFree _);
    rewrite ?Hq; simpl; by destruct (Use d).
Qed.

(** X14: with a displayed unit other than zero, [Print] renders a table
    exactly when no device reports a total of zero together with a used
    count; one such device makes the whole report panic on a division by
    zero, while an empty cluster or a capacity sum of zero does not. *)
Theorem Print_renders_iff (r : Render) (s : efesStatus) :
  G r ≠ 0 →
  (is_Some (Print r s) ↔ Forall (λ d, ¬ zero_total d) (devices s)).
Proof.
  intros HG.
  assert (Hq : ∀ x, quo x (G r) = Some (quot x (G r)))
    by (intros; unfold quo; by rewrite decide_False).
  unfold Print. rewrite !Hq. simpl.
  destruct (mapM (row r) (devices s)) as [data |] eqn:Hrows; simpl.
  - split; [intros _ | eauto].
    apply mapM_Some_1 in Hrows. apply Forall_forall. intros d Hd Hz.
    apply (row_panics_iff r d HG) in Hz.
    apply list_elem_of_lookup in Hd as [i Hi].
    destruct (Forall2_lookup_l _ _ _ i d Hrows Hi) as (cells & _ & Hcells).
    congruence.
  - split; [by intros [? [=]] |]. intros Hall. exfalso.
    apply mapM_None_1, Exists_exists in Hrows as (d & Hd & Hrow).
    apply (row_panics_iff r d HG) in Hrow.
    rewrite Forall_forall in Hall. by apply (Hall d Hd).
Qed.

(** The sample inventory renders; a device with a total of zero and a used
    count would not. *)
Lemma Print_renders_iff_witness :
  is_Some (Print plain (mkEfesStatus [mkDeviceStatus dev3 "alpha" "alive" 0;
                                      mkDeviceStatus dev9 "" "" 0]))
  ↔ Forall (λ d, ¬ zero_total d)
           [mkDeviceStatus dev3 "alpha" "alive" 0; mkDeviceStatus dev9 "" "" 0].
Proof.
  apply (Print_renders_iff plain
           (mkEfesStatus [mkDeviceStatus dev3 "alpha" "alive" 0;
                          mkDeviceStatus dev9 "" "" 0])).
  simpl. lia.
Defined.

Example Print_zero_total_panics :
  Print plain (mkEfesStatus [device_with "alive" (Some 0) (Some 0)]) = None ∧
  is_Some (Print plain (mkEfesStatus [])) ∧
  is_Some (Print plain (mkEfesStatus [device_with "alive" (Some 0) None])).
Proof. split_and!; vm_compute; eauto. Qed.

Lemma row_cells (r : Render) (d : deviceStatus) (cells : list string) :
  row r d = Some cells →
  ∃ size used free use,
    cells = [Hostname d; HostStatus d; FormatInt (Device.Devid (Device d));
             Device.Status (Device d); size; used; free; use; IO d;
             since r (UpdatedAt d)].
Proof.
  unfold row. intros Hrow.
  apply bind_Some in Hrow as (size & _ & Hrow).
  apply bind_Some in Hrow as (used & _ & Hrow).
  apply bind_Some in Hrow as (free & _ & Hrow).
  apply bind_Some in Hrow as (use & _ & Hrow).
  injection Hrow as <-. eauto.
Qed.

(** X15: the table [Print] renders has the ten columns of its header in
    the footer and in every row, and one row per device of the view in the
    order of the view: row [i] shows the host name, the device identifier,
    the device status and the time since the update of device [i]. *)
Theorem Print_rows_follow_devices (r : Render) (s : efesStatus) (t : Table) :
  Print r s = Some t →
  header t = table_header ∧
  length (footer t) = length (header t) ∧
  length (rows t) = length (devices s) ∧
  Forall (λ cells, length cells = length (header t)) (rows t) ∧
  (∀ i d, devices s !! i = Some d →
     ∃ cells, rows t !! i = Some cells ∧
              cells !! 0%nat = Some (Hostname d) ∧
              cells !! 2%nat = Some (FormatInt (Device.Devid (Device d))) ∧
              cells !! 3%nat = Some (Device.Status (Device d)) ∧
              cells !! 9%nat = Some (since r (UpdatedAt d))).
Proof.
  intros HP. pose proof (Print_rows r s t HP) as Hrows.
  assert (Hhead : header t = table_header ∧
                  length (footer t) = length (header t)).
  { unfold Print in HP.
    repeat (apply bind_Some in HP as (? & _ & HP)). by injection HP as <-. }
  destruct Hhead as [Hh Hf]. split_and!; try done.
  - symmetry. by eapply Forall2_length.
  - rewrite Hh. clear HP Hh Hf.
    induction Hrows as [| d cells ds rws Hrow _ IH]; constructor; [| done].
    by apply row_cells in Hrow as (? & ? & ? & ? & ->).
  - intros i d Hi.
    destruct (Forall2_lookup_l _ _ _ i d Hrows Hi) as (cells & Hcells & Hrow).
    exists cells. apply row_cells in Hrow as (? & ? & ? & ? & ->).
    by split_and!.
Qed.

(** The sample inventory, rendered. *)
Lemma Print_rows_follow_devices_witness :
  let s := mkEfesStatus [mkDeviceStatus dev3 "alpha" "alive" 0;
                         mkDeviceStatus dev2 "alpha" "alive" 0] in
  let t := default (mkTable [] [] []) (Print plain s) in
  header t = table_header ∧
  length (footer t) = length (header t) ∧
  length (rows t) = length (devices s) ∧
  Forall (λ cells, length cells = length (header t)) (rows t) ∧
  (∀ i d, devices s !! i = Some d →
     ∃ cells, rows t !! i = Some cells ∧
              cells !! 0%nat = Some (Hostname d) ∧
              cells !! 2%nat = Some (FormatInt (Device.Devid (Device d))) ∧
              cells !! 3%nat = Some (Device.Status (Device d)) ∧
              cells !! 9%nat = Some (since plain (UpdatedAt d))).
Proof.
  exact (Print_rows_follow_devices plain
           (mkEfesStatus [mkDeviceStatus dev3 "alpha" "alive" 0;
                          mkDeviceStatus dev2 "alpha" "alive" 0])
           (default (mkTable [] [] [])
              (Print plain
                 (mkEfesStatus [mkDeviceStatus dev3 "alpha" "alive" 0;
                                mkDeviceStatus dev2 "alpha" "alive" 0])))
           eq_refl).
Defined.

Lemma mapM_Permutation {A B : Type} (f : A → option B) (l1 l2 : list A) :
  l1 ≡ₚ l2 →
  match mapM f l1, mapM f l2 with
  | Some k1, Some k2 => k1 ≡ₚ k2
  | None, None => True
  | _, _ => False
  end.
Proof.
  induction 1 as [| x l l' _ IH | x y l | l l' l'' _ IH1 _ IH2]; simpl.
  - done.
  - destruct (f x); simpl; [| done].
    destruct (mapM f l), (mapM f l'); simpl; try done. by constructor.
  - destruct (f x), (f y); simpl; try done.
    destruct (mapM f l); simpl; [| done]. by constructor.
  - destruct (mapM f l), (mapM f l'), (mapM f l''); try done. by etrans.
Qed.

(** X16: the order of the devices only orders the rows: two views with
    the same devices in different orders either both make [Print] panic or
    both render, with the same header, the same footer of totals and the
    same rows up to their order. *)
Theorem Print_ignores_order (r : Render) (s1 s2 : efesStatus) :
  devices s1 ≡ₚ devices s2 →
  match Print r s1, Print r s2 with
  | Some t1, Some t2 =>
      header t1 = header t2 ∧ footer t1 = footer t2 ∧ rows t1 ≡ₚ rows t2
  | None, None => True
  | _, _ => False
  end.
Proof.
  intros Hp. unfold Print. rewrite (sum_totals_perm s1 s2 Hp).
  destruct (quo (totalUsed _) _); simpl; [| done].
  destruct (quo (totalFree _) _); simpl; [| done].
  destruct (quo (totalSize _) _); simpl; [| done].
  pose proof (mapM_Permutation (row r) _ _ Hp) as Hrows.
  by destruct (mapM (row r) (devices s1)), (mapM (row r) (devices s2)).
Qed.

(** The two living devices of the sample inventory, in both orders. *)
Lemma Print_ignores_order_witness :
  match Print plain (mkEfesStatus [mkDeviceStatus dev3 "alpha" "alive" 0;
                                   mkDeviceStatus dev2 "alpha" "alive" 0]),
        Print plain (mkEfesStatus [mkDeviceStatus dev2 "alpha" "alive" 0;
                                   mkDeviceStatus dev3 "alpha" "alive" 0]) with
  | Some t1, Some t2 =>
      header t1 = header t2 ∧ footer t1 = footer t2 ∧ rows t1 ≡ₚ rows t2
  | None, None => True
  | _, _ => False
  end.
Proof.
  apply (Print_ignores_order plain
           (mkEfesStatus [mkDeviceStatus dev3 "alpha" "alive" 0;
                          mkDeviceStatus dev2 "alpha" "alive" 0])
           (mkEfesStatus [mkDeviceStatus dev2 "alpha" "alive" 0;
                          mkDeviceStatus dev3 "alpha" "alive" 0])).
  simpl. apply perm_swap.
Defined.

Lemma wrap64_mod (x : Z) : wrap64 x `mod` 2 ^ 64 = x `mod` 2 ^ 64.
Proof.
  unfold wrap64. rewrite Zminus_mod_idemp_l. f_equal. lia.
Qed.

Lemma wrap64_congr (x y : Z) :
  x `mod` 2 ^ 64 = y `mod` 2 ^ 64 → wrap64 x = wrap64 y.
Proof.
  intros Hxy. unfold wrap64.
  by rewrite (Z.add_mod x), (Z.add_mod y), Hxy by lia.
Qed.

(** X17: for every view, whatever the byte counts, the totals of [Print]
    are the exact sums over the devices that report a count, reduced to 64
    bits in two's complement: used, size, free as size minus used, and the
    usage as the truncated quotient of 100 times used by size, computed on
    the reduced values and 0 when the reduced size is 0. *)
Theorem sum_totals_exact (s : efesStatus) :
  let used := spec_sum Device.BytesUsed (devices s) in
  let total := spec_sum Device.BytesTotal (devices s) in
  totalUsed (sum_totals s) = wrap64 used ∧
  totalSize (sum_totals s) = wrap64 total ∧
  totalFree (sum_totals s) = wrap64 (total - used) ∧
  totalUse (sum_totals s)
  = if decide (wrap64 total = 0) then 0
    else wrap64 (wrap64 (100 * used) ÷ wrap64 total).
Proof.
  intros used total. unfold sum_totals.
  change (0, 0) with (wrap64 0, wrap64 0). rewrite sum_step_foldl.
  simpl. fold used total. rewrite !Z.add_0_l. split_and!; try done.
  - unfold sub. apply wrap64_congr.
    by rewrite Zminus_mod, !wrap64_mod, <- Zminus_mod.
  - case_decide; [done |]. unfold quot, mul. do 2 f_equal.
    apply wrap64_congr.
    by rewrite Zmult_mod, wrap64_mod, <- Zmult_mod.
Qed.
